(** * filetag: the tag store of [lib/index.js], embedded and verified

    The store is the JavaScript class [FileTag]: a JSON file on disk, an
    in-memory object [this.db] from absolute paths to tag records, and the
    methods [init], [save], [addTags], [removeTags], [getTags], [findByTags],
    [listAllTags], [listAll] and [clearTags].

    Modelling conventions.
    - A JavaScript string is a sequence of code units; [string] gives the
      code units below 256, compared unit by unit as [Array.prototype.sort]
      and [===] do.
    - A JavaScript object used as a dictionary keeps its keys in insertion
      order ([Object.entries], [JSON.stringify]), so it is an association
      list with the update-in-place discipline of property assignment.
    - A [Set] iterates in insertion order; it is a duplicate-free list.
    - The file system, the working directory, the clock and the log of file
      system calls form the [World]; every method is a state transformer
      over the instance and the world that can return, throw, or leave the
      modelled fragment.
    - The file system holds regular files and directories under resolved
      absolute paths. A read fails when there is no such file, an access
      when there is no entry at all. A write is taken to succeed;
      [fs.writeFile] does so when the directory of the path exists and the
      path is no directory ([writable]), and the statements about what a
      write leaves on disk assume it and show that every write issued was
      of that kind. The clock is an arbitrary sequence of timestamps. *)

From Stdlib Require Import Ascii String.
From stdpp Require Import gmap strings list sorting.

Open Scope string_scope.
Set Warnings "-register-all".


(** ** JavaScript containers *)

Module JS.

(** [new Set(iterable)] / [set.add(x)] / [set.has(x)] / [Array.from(set)]:
    the elements in the order of their first insertion. *)
Definition has (s : list string) (x : string) : bool :=
  bool_decide (x ∈ s).

Definition add (s : list string) (x : string) : list string :=
  if has s x then s else s ++ [x].

(** [xs.forEach(x => s.add(x))] *)
Definition add_all (s : list string) (xs : list string) : list string :=
  foldl add s xs.

Definition new_Set (xs : list string) : list string := add_all [] xs.

(** Own string-keyed properties of an object, in insertion order. *)
Definition object (V : Type) : Type := list (string * V).

Fixpoint get {V} (o : object V) (k : string) : option V :=
  match o with
  | [] => None
  | (k', v) :: o' => if String.eqb k' k then Some v else get o' k
  end.

(** [o[k] = v]: an existing key keeps its position, a new one goes last. *)
Fixpoint set {V} (o : object V) (k : string) (v : V) : object V :=
  match o with
  | [] => [(k, v)]
  | (k', v') :: o' =>
      if String.eqb k' k then (k, v) :: o' else (k', v') :: set o' k v
  end.

(** [delete o[k]] *)
Fixpoint delete {V} (o : object V) (k : string) : object V :=
  match o with
  | [] => []
  | (k', v') :: o' =>
      if String.eqb k' k then delete o' k else (k', v') :: delete o' k
  end.

Definition keys {V} (o : object V) : list string := map fst o.
Definition values {V} (o : object V) : list V := map snd o.

(** [xs.every(p)] and [xs.some(p)] *)
Definition every {A} (p : A -> bool) (xs : list A) : bool := forallb p xs.
Definition some {A} (p : A -> bool) (xs : list A) : bool := existsb p xs.

(** [xs.sort()] on strings: ascending by code units. *)
Definition sort (xs : list string) : list string := merge_sort String.le xs.

End JS.

(** ** Data model *)

(** The value stored under a path: [{ tags, created, modified }]. *)
Record TagRecord := mkRecord {
  tags : list string;
  created : string;
  modified : string
}.

(** [this.db] when it has the shape the store writes. *)
Definition DB : Type := JS.object TagRecord.

(** ** JSON: values, [JSON.stringify(db, null, 2)], [JSON.parse] *)

Module JSON.

Inductive value :=
| Null
| Bool (b : bool)
| Number (raw : string)
| Str (s : string)
| Array (xs : list value)
| Object (ms : JS.object value).

(** Outcome of [JSON.parse]: a value, a thrown [SyntaxError], or a text
    whose value has no counterpart here (an escape above code unit 255). *)
Inductive result (A : Type) :=
| Parsed (a : A)
| SyntaxError
| Unsupported.
Arguments Parsed {A} a.
Arguments SyntaxError {A}.
Arguments Unsupported {A}.

Local Open Scope nat_scope.

Definition code (c : ascii) : nat := nat_of_ascii c.
Definition chr (n : nat) : string := String (ascii_of_nat n) "".

Definition dq : string := chr 34.
Definition nl : string := chr 10.

Fixpoint indent (n : nat) : string :=
  match n with
  | O => ""
  | S n' => " " ++ indent n'
  end.

Definition hex_digit (n : nat) : string :=
  chr (if n <? 10 then 48 + n else 87 + n).

(** One code unit inside a quoted JSON string. *)
Definition escape (c : ascii) : string :=
  let n := code c in
  if n =? 34 then "\" ++ dq
  else if n =? 92 then "\\"
  else if n =? 8 then "\b"
  else if n =? 12 then "\f"
  else if n =? 10 then "\n"
  else if n =? 13 then "\r"
  else if n =? 9 then "\t"
  else if n <? 32 then "\u00" ++ hex_digit (n / 16) ++ hex_digit (n mod 16)
  else String c "".

Fixpoint quote_body (s : string) : string :=
  match s with
  | "" => ""
  | String c r => escape c ++ quote_body r
  end.

Definition quote (s : string) : string := dq ++ quote_body s ++ dq.

Definition lines (xs : list string) : string :=
  String.concat ("," ++ nl) xs.

Definition stringify_tags (ts : list string) : string :=
  match ts with
  | [] => "[]"
  | _ => "[" ++ nl ++ lines (map (fun t => indent 6 ++ quote t) ts)
         ++ nl ++ indent 4 ++ "]"
  end.

Definition stringify_record (r : TagRecord) : string :=
  "{" ++ nl
  ++ indent 4 ++ quote "tags" ++ ": " ++ stringify_tags (tags r) ++ "," ++ nl
  ++ indent 4 ++ quote "created" ++ ": " ++ quote (created r) ++ "," ++ nl
  ++ indent 4 ++ quote "modified" ++ ": " ++ quote (modified r) ++ nl
  ++ indent 2 ++ "}".

(** [JSON.stringify(db, null, 2)] for a [db] of the store's shape. *)
Definition stringify (d : DB) : string :=
  match d with
  | [] => "{}"
  | _ => "{" ++ nl
         ++ lines (map (fun e => indent 2 ++ quote (fst e) ++ ": "
                                 ++ stringify_record (snd e)) d)
         ++ nl ++ "}"
  end.

(** *** Parsing *)

Definition is_ws (c : ascii) : bool :=
  let n := code c in (n =? 32) || (n =? 9) || (n =? 10) || (n =? 13).

Definition is_digit (c : ascii) : bool :=
  let n := code c in (48 <=? n) && (n <=? 57).

Fixpoint skip_ws (s : string) : string :=
  match s with
  | String c r => if is_ws c then skip_ws r else s
  | "" => ""
  end.

Fixpoint strip_prefix (p s : string) : option string :=
  match p, s with
  | "", _ => Some s
  | String a p', String b s' =>
      if Ascii.eqb a b then strip_prefix p' s' else None
  | _, _ => None
  end.

Definition hex_val (c : ascii) : option nat :=
  let n := code c in
  if (48 <=? n) && (n <=? 57) then Some (n - 48)
  else if (97 <=? n) && (n <=? 102) then Some (n - 87)
  else if (65 <=? n) && (n <=? 70) then Some (n - 55)
  else None.

Definition hex4 (a b c d : ascii) : option nat :=
  match hex_val a, hex_val b, hex_val c, hex_val d with
  | Some x, Some y, Some z, Some w => Some (((x * 16 + y) * 16 + z) * 16 + w)
  | _, _, _, _ => None
  end.

Definition simple_escape (c : ascii) : option string :=
  let n := code c in
  if n =? 34 then Some dq
  else if n =? 92 then Some "\"
  else if n =? 47 then Some "/"
  else if n =? 98 then Some (chr 8)
  else if n =? 102 then Some (chr 12)
  else if n =? 110 then Some (chr 10)
  else if n =? 114 then Some (chr 13)
  else if n =? 116 then Some (chr 9)
  else None.

(** The characters of a string literal after its opening quote; returns
    the decoded string and the text after the closing quote. *)
Fixpoint parse_chars (s : string) : result (string * string) :=
  match s with
  | "" => SyntaxError
  | String c r =>
      let n := code c in
      if n =? 34 then Parsed ("", r)
      else if n <? 32 then SyntaxError
      else if n =? 92 then
        match r with
        | String e r1 =>
            if code e =? 117 then
              match r1 with
              | String h1 (String h2 (String h3 (String h4 r2))) =>
                  match hex4 h1 h2 h3 h4 with
                  | Some u =>
                      if u <? 256 then
                        match parse_chars r2 with
                        | Parsed (t, rest) => Parsed (chr u ++ t, rest)
                        | SyntaxError => SyntaxError
                        | Unsupported => Unsupported
                        end
                      else
                        match parse_chars r2 with
                        | SyntaxError => SyntaxError
                        | _ => Unsupported
                        end
                  | None => SyntaxError
                  end
              | _ => SyntaxError
              end
            else
              match simple_escape e with
              | Some t0 =>
                  match parse_chars r1 with
                  | Parsed (t, rest) => Parsed (t0 ++ t, rest)
                  | SyntaxError => SyntaxError
                  | Unsupported => Unsupported
                  end
              | None => SyntaxError
              end
        | "" => SyntaxError
        end
      else
        match parse_chars r with
        | Parsed (t, rest) => Parsed (String c t, rest)
        | SyntaxError => SyntaxError
        | Unsupported => Unsupported
        end
  end.

(** Leading digits of [s] and what follows them. *)
Fixpoint span_digits (s : string) : string * string :=
  match s with
  | String c r =>
      if is_digit c then
        let '(ds, rest) := span_digits r in (String c ds, rest)
      else ("", s)
  | "" => ("", "")
  end.

Definition parse_int (s : string) : option (string * string) :=
  match s with
  | String c r =>
      if code c =? 48 then Some ("0", r)
      else if is_digit c then Some (span_digits s)
      else None
  | "" => None
  end.

Definition parse_frac (s : string) : option (string * string) :=
  match s with
  | String c r =>
      if code c =? 46 then
        match span_digits r with
        | ("", _) => None
        | (ds, rest) => Some (String c ds, rest)
        end
      else Some ("", s)
  | "" => Some ("", "")
  end.

Definition parse_exp (s : string) : option (string * string) :=
  match s with
  | String c r =>
      if (code c =? 101) || (code c =? 69) then
        let '(sign, r1) :=
          match r with
          | String g r' =>
              if (code g =? 43) || (code g =? 45) then (String g "", r')
              else ("", r)
          | "" => ("", r)
          end in
        match span_digits r1 with
        | ("", _) => None
        | (ds, rest) => Some (String c (sign ++ ds), rest)
        end
      else Some ("", s)
  | "" => Some ("", "")
  end.

Definition parse_number (s : string) : result (value * string) :=
  let '(sign, s0) :=
    match s with
    | String c r => if code c =? 45 then ("-", r) else ("", s)
    | "" => ("", s)
    end in
  match parse_int s0 with
  | None => SyntaxError
  | Some (i, s1) =>
      match parse_frac s1 with
      | None => SyntaxError
      | Some (f, s2) =>
          match parse_exp s2 with
          | None => SyntaxError
          | Some (e, s3) => Parsed (Number (sign ++ i ++ f ++ e), s3)
          end
      end
  end.

Definition parse_literal (lit : string) (v : value) (s : string)
  : result (value * string) :=
  match strip_prefix lit s with
  | Some r => Parsed (v, r)
  | None => SyntaxError
  end.

Fixpoint parse_value (fuel : nat) (s : string) : result (value * string) :=
  match fuel with
  | O => Unsupported
  | S f =>
      match skip_ws s with
      | "" => SyntaxError
      | String c r as s' =>
          let n := code c in
          if n =? 123 then
            match skip_ws r with
            | String c' r' as r0 =>
                if code c' =? 125 then Parsed (Object [], r')
                else parse_members f r0 []
            | "" => SyntaxError
            end
          else if n =? 91 then
            match skip_ws r with
            | String c' r' as r0 =>
                if code c' =? 93 then Parsed (Array [], r')
                else parse_elems f r0 []
            | "" => SyntaxError
            end
          else if n =? 34 then
            match parse_chars r with
            | Parsed (t, rest) => Parsed (Str t, rest)
            | SyntaxError => SyntaxError
            | Unsupported => Unsupported
            end
          else if n =? 116 then parse_literal "true" (Bool true) s'
          else if n =? 102 then parse_literal "false" (Bool false) s'
          else if n =? 110 then parse_literal "null" Null s'
          else parse_number s'
      end
  end

with parse_elems (fuel : nat) (s : string) (acc : list value)
  : result (value * string) :=
  match fuel with
  | O => Unsupported
  | S f =>
      match parse_value f s with
      | Parsed (v, r) =>
          match skip_ws r with
          | String c r' =>
              if code c =? 44 then parse_elems f r' (acc ++ [v])
              else if code c =? 93 then Parsed (Array (acc ++ [v]), r')
              else SyntaxError
          | "" => SyntaxError
          end
      | SyntaxError => SyntaxError
      | Unsupported => Unsupported
      end
  end

with parse_members (fuel : nat) (s : string) (acc : JS.object value)
  : result (value * string) :=
  match fuel with
  | O => Unsupported
  | S f =>
      match skip_ws s with
      | String q r =>
          if code q =? 34 then
            match parse_chars r with
            | Parsed (k, r1) =>
                match skip_ws r1 with
                | String c r2 =>
                    if code c =? 58 then
                      match parse_value f r2 with
                      | Parsed (v, r3) =>
                          match skip_ws r3 with
                          | String c' r4 =>
                              if code c' =? 44
                              then parse_members f r4 (JS.set acc k v)
                              else if code c' =? 125
                              then Parsed (Object (JS.set acc k v), r4)
                              else SyntaxError
                          | "" => SyntaxError
                          end
                      | SyntaxError => SyntaxError
                      | Unsupported => Unsupported
                      end
                    else SyntaxError
                | "" => SyntaxError
                end
            | SyntaxError => SyntaxError
            | Unsupported => Unsupported
            end
          else SyntaxError
      | "" => SyntaxError
      end
  end.

(** [JSON.parse(text)] *)
Definition parse (text : string) : result value :=
  match parse_value (2 * String.length text + 2) text with
  | Parsed (v, r) =>
      match skip_ws r with
      | "" => Parsed v
      | _ => SyntaxError
      end
  | SyntaxError => SyntaxError
  | Unsupported => Unsupported
  end.

(** *** The store's shape inside a parsed value *)

Definition as_string (v : value) : option string :=
  match v with
  | Str s => Some s
  | _ => None
  end.

Fixpoint as_strings (vs : list value) : option (list string) :=
  match vs with
  | [] => Some []
  | v :: vs' =>
      match as_string v, as_strings vs' with
      | Some s, Some ss => Some (s :: ss)
      | _, _ => None
      end
  end.

(** Exactly [{ "tags": [strings], "created": string, "modified": string }],
    the keys in the order [addTags] creates them. *)
Definition as_record (v : value) : option TagRecord :=
  match v with
  | Object [(k1, Array ts); (k2, Str c); (k3, Str m)] =>
      if String.eqb k1 "tags" && String.eqb k2 "created"
         && String.eqb k3 "modified"
      then match as_strings ts with
           | Some ss => Some (mkRecord ss c m)
           | None => None
           end
      else None
  | _ => None
  end.

Fixpoint as_records (ms : JS.object value) : option DB :=
  match ms with
  | [] => Some []
  | (k, v) :: ms' =>
      match as_record v, as_records ms' with
      | Some r, Some d => Some ((k, r) :: d)
      | _, _ => None
      end
  end.

(** Keys that start with a digit may be integer indices, which an object
    enumerates before its other keys; such objects are left unclassified. *)
Definition plain_key (k : string) : bool :=
  match k with
  | String c _ => negb (is_digit c)
  | "" => true
  end.

Definition as_store (v : value) : option DB :=
  match v with
  | Object ms =>
      if forallb plain_key (JS.keys ms) && bool_decide (NoDup (JS.keys ms))
      then as_records ms
      else None
  | _ => None
  end.

Fixpoint mantissa (raw : string) : string :=
  match raw with
  | String c r =>
      if (code c =? 101) || (code c =? 69) then "" else String c (mantissa r)
  | "" => ""
  end.

(** What follows the first character of [s] that satisfies [p]. *)
Fixpoint after (p : ascii -> bool) (s : string) : string :=
  match s with
  | String c r => if p c then r else after p r
  | "" => ""
  end.

(** The digits of [s] read as one decimal number, other characters
    skipped. *)
Fixpoint digits_value (acc : N) (s : string) : N :=
  match s with
  | String c r =>
      digits_value (if is_digit c then (10 * acc + N.of_nat (code c - 48))%N
                    else acc) r
  | "" => acc
  end.

(** The digits after the decimal point of a number literal. *)
Definition fraction (raw : string) : string :=
  after (fun c => code c =? 46) (mantissa raw).

(** The power of ten by which the digits of the literal are scaled: its
    exponent part less the number of fraction digits. *)
Definition decimal_exponent (raw : string) : Z :=
  let e := after (fun c => (code c =? 101) || (code c =? 69)) raw in
  let n := Z.of_N (digits_value 0 e) in
  let negative :=
    match e with
    | String c _ => code c =? 45
    | "" => false
    end in
  ((if negative then - n else n) - Z.of_nat (String.length (fraction raw)))%Z.

(** Whether the double a number literal denotes is [0] or [-0]: its digits
    are all zero, or its value [m * 10^e] is at most [2^-1075], half the
    least positive double, and rounds to zero. *)
Definition is_zero (raw : string) : bool :=
  let m := digits_value 0 (mantissa raw) in
  let e := decimal_exponent raw in
  (m =? 0)%N || ((e <? 0)%Z && (m * 2 ^ 1075 <=? 10 ^ Z.to_N (- e))%N).

(** [!v] for a parsed value: [null], [false], [0], [-0] and the empty
    string are falsy. *)
Definition falsy (v : value) : bool :=
  match v with
  | Null => true
  | Bool b => negb b
  | Number raw => is_zero raw
  | Str s => String.eqb s ""
  | Array _ => false
  | Object _ => false
  end.

End JSON.

(** ** The world outside the instance *)

(** Calls of [fs.promises]. The library issues [readFile], [writeFile] and
    [access]; [rename] belongs to the same interface. *)
Inductive fs_call :=
| ReadFile (path : string)
| WriteFile (path data : string)
| Access (path : string)
| Rename (oldPath newPath : string).

Record World := mkWorld {
  files : gmap string string;  (* regular files by absolute path *)
  dirs : gset string;          (* directories by absolute path, besides [/] *)
  cwd : string;                (* process.cwd() *)
  clock : nat -> string;       (* the n-th reading of new Date().toISOString() *)
  ticks : nat;                 (* clock readings so far *)
  calls : list fs_call         (* file system calls so far, oldest first *)
}.

Module Path.

(** The segments of a path between its slashes. *)
Fixpoint split_go (cur : string) (s : string) : list string :=
  match s with
  | "" => [cur]
  | String c r =>
      if Ascii.eqb c "/"%char then cur :: split_go "" r
      else split_go (cur ++ String c "") r
  end.

Definition split (s : string) : list string := split_go "" s.

(** Resolution of [.] and [..] and of empty segments, left to right. *)
Definition step (stack : list string) (seg : string) : list string :=
  if String.eqb seg "" || String.eqb seg "." then stack
  else if String.eqb seg ".." then removelast stack
  else stack ++ [seg].

Definition normalize (segs : list string) : list string :=
  foldl step [] segs.

Definition is_absolute (p : string) : bool :=
  match p with
  | String c _ => Ascii.eqb c "/"%char
  | "" => false
  end.

(** [path.resolve(p)] on POSIX, for a working directory [dir]. *)
Definition resolve (dir p : string) : string :=
  let segs := if is_absolute p then split p else (split dir ++ split p)%list in
  "/" ++ String.concat "/" (normalize segs).

(** [path.dirname(a)] of a resolved path [a]. *)
Definition dirname (a : string) : string :=
  "/" ++ String.concat "/" (removelast (normalize (split a))).

End Path.

(** ** The class [FileTag] *)

Module FileTag.

(** [this.db]: records of the store's shape, or any other value
    ([null] before [init], or whatever else the backing file held). *)
Inductive db_value :=
| Records (d : DB)
| Other (j : JSON.value).

Record t := mk {
  dbPath : string;
  db : db_value
}.

(** [new FileTag(dbPath = '.filetag.json')] *)
Definition constructor (path : option string) : t :=
  mk (default ".filetag.json" path) (Other JSON.Null).

(** [new Error(message)] *)
Inductive exn := Error (message : string).

(** How a method call ends: its promise resolves, it rejects, or the
    call leaves the fragment modelled here (a [db] of foreign shape is
    indexed, or a text outside the character range is parsed). *)
Inductive outcome (A : Type) :=
| Return (a : A)
| Throw (e : exn)
| Unmodelled.
Arguments Return {A} a.
Arguments Throw {A} e.
Arguments Unmodelled {A}.

Definition M (A : Type) : Type := t * World -> outcome A * (t * World).

Definition ret {A} (a : A) : M A := fun s => (Return a, s).
Definition throw {A} (e : exn) : M A := fun s => (Throw e, s).
Definition unmodelled {A} : M A := fun s => (Unmodelled, s).

Definition bind {A B} (m : M A) (k : A -> M B) : M B :=
  fun s =>
    match m s with
    | (Return a, s') => k a s'
    | (Throw e, s') => (Throw e, s')
    | (Unmodelled, s') => (Unmodelled, s')
    end.

Notation "'let*' x ':=' m 'in' k" := (bind m (fun x => k))
  (at level 10, x name, m at level 100, k at level 200).
Notation "m ';;' k" := (bind m (fun _ => k))
  (at level 100, k at level 200, right associativity).

(** *** Access to the instance and to the world *)

Definition get_dbPath : M string := fun s => (Return (dbPath (fst s)), s).
Definition get_db : M db_value := fun s => (Return (db (fst s)), s).
Definition set_db (v : db_value) : M unit :=
  fun s => (Return tt, (mk (dbPath (fst s)) v, snd s)).

(** [this.db] read as records. *)
Definition records : M DB :=
  let* v := get_db in
  match v with
  | Records d => ret d
  | Other _ => unmodelled
  end.

Definition log (c : fs_call) (w : World) : World :=
  mkWorld (files w) (dirs w) (cwd w) (clock w) (ticks w) (calls w ++ [c]).

(** The world after one more reading of the clock. *)
Definition tick (w : World) : World :=
  mkWorld (files w) (dirs w) (cwd w) (clock w) (S (ticks w)) (calls w).

(** The world after [writeFile] put [data] at the absolute path [a]. *)
Definition written (a data : string) (w : World) : World :=
  mkWorld (<[a := data]> (files w)) (dirs w) (cwd w) (clock w) (ticks w)
          (calls w ++ [WriteFile a data]).

(** [path.resolve(p)] *)
Definition path_resolve (p : string) : M string :=
  fun s => (Return (Path.resolve (cwd (snd s)) p), s).

(** [await fs.readFile(p, 'utf8')]; [None] when it rejects because there
    is no such file (a directory is not one). *)
Definition readFile (p : string) : M (option string) :=
  fun s =>
    let w := snd s in
    let a := Path.resolve (cwd w) p in
    (Return (files w !! a), (fst s, log (ReadFile a) w)).

(** Whether the absolute path [a] is a directory. *)
Definition is_dir (w : World) (a : string) : bool :=
  String.eqb a "/" || bool_decide (a ∈ dirs w).

(** Whether [fs.writeFile] resolves on the absolute path [a]: the
    directory of [a] exists and [a] is not itself a directory. Otherwise
    it rejects ([ENOENT], [ENOTDIR], [EISDIR]) and writes nothing. *)
Definition writable (w : World) (a : string) : bool :=
  is_dir w (Path.dirname a) && negb (is_dir w a).

(** [await fs.writeFile(p, data)], taken to resolve: the file holds [data]
    afterwards. This is what the call does on a [writable] path; its
    rejection on another path is not modelled. *)
Definition writeFile (p data : string) : M unit :=
  fun s =>
    let w := snd s in
    let a := Path.resolve (cwd w) p in
    (Return tt, (fst s, written a data w)).

(** Whether there is an entry, a file or a directory, at the absolute
    path [a]. *)
Definition exists_at (w : World) (a : string) : bool :=
  bool_decide (is_Some (files w !! a)) || is_dir w a.

(** [await fs.access(p)]: [true] when it resolves. *)
Definition access (p : string) : M bool :=
  fun s =>
    let w := snd s in
    let a := Path.resolve (cwd w) p in
    (Return (exists_at w a), (fst s, log (Access a) w)).

(** [new Date().toISOString()] *)
Definition now : M string :=
  fun s =>
    let w := snd s in
    (Return (clock w (ticks w)), (fst s, tick w)).

(** [!this.db] *)
Definition unloaded (v : db_value) : bool :=
  match v with
  | Records _ => false
  | Other j => JSON.falsy j
  end.

(** The value [JSON.parse] returned, as [this.db]. *)
Definition of_json (j : JSON.value) : db_value :=
  match JSON.as_store j with
  | Some d => Records d
  | None => Other j
  end.

(** *** Methods

    The parameter the source calls [tags] is [new_tags], [old_tags] or
    [query] here, [tags] being the field of a record. *)

(** [await fs.writeFile(this.dbPath, JSON.stringify(this.db, null, 2))] *)
Definition save : M unit :=
  let* d := records in
  let* p := get_dbPath in
  writeFile p (JSON.stringify d).

(** [try { data = await fs.readFile(this.dbPath, 'utf8');
           this.db = JSON.parse(data); }
     catch (error) { this.db = {}; await this.save(); }]
    The handler runs for a missing file and for a text that does not
    parse alike. *)
Definition init : M unit :=
  let* p := get_dbPath in
  let* data := readFile p in
  match data with
  | Some text =>
      match JSON.parse text with
      | JSON.Parsed j => set_db (of_json j)
      | JSON.SyntaxError => set_db (Records []) ;; save
      | JSON.Unsupported => unmodelled
      end
  | None => set_db (Records []) ;; save
  end.

(** [if (!this.db) { await this.init(); }] *)
Definition ensure_init : M unit :=
  let* v := get_db in
  if unloaded v then init else ret tt.

(** [this.db[k] = f(this.db[k])] for a key that is present. *)
Definition update (k : string) (f : TagRecord -> TagRecord) : M unit :=
  let* d := records in
  match JS.get d k with
  | Some r => set_db (Records (JS.set d k (f r)))
  | None => unmodelled
  end.

Definition set_tags (ts : list string) (r : TagRecord) : TagRecord :=
  mkRecord ts (created r) (modified r).
Definition set_modified (m : string) (r : TagRecord) : TagRecord :=
  mkRecord (tags r) (created r) m.

(** [this.db[k].tags] for a key that is present. *)
Definition tags_at (k : string) : M (list string) :=
  let* d := records in
  match JS.get d k with
  | Some r => ret (tags r)
  | None => unmodelled
  end.

(** [addTags(filePath, tags)]: load, resolve, [fs.access] or throw
    [new Error(`File not found: ${absolutePath}`)]; create the record
    [{ tags: [], created: now, modified: now }] if there is none; then
    [existingTags = new Set(record.tags)], add every tag,
    [record.tags = Array.from(existingTags)], [record.modified = now],
    save, return [record.tags]. *)
Definition addTags (filePath : string) (new_tags : list string)
  : M (list string) :=
  ensure_init ;;
  let* absolutePath := path_resolve filePath in
  let* found := access absolutePath in
  if negb found then throw (Error ("File not found: " ++ absolutePath))
  else
    let* d := records in
    (match JS.get d absolutePath with
     | None =>
         let* c := now in
         let* m := now in
         set_db (Records (JS.set d absolutePath (mkRecord [] c m)))
     | Some _ => ret tt
     end) ;;
    let* old := tags_at absolutePath in
    let existingTags := JS.add_all (JS.new_Set old) new_tags in
    update absolutePath (set_tags existingTags) ;;
    let* m := now in
    update absolutePath (set_modified m) ;;
    save ;;
    tags_at absolutePath.

(** [removeTags(filePath, tags)]: load, resolve; without a record return
    [[]] at once; else [record.tags = record.tags.filter(tag =>
    !tagSet.has(tag))] for [tagSet = new Set(tags)],
    [record.modified = now], save, return [record.tags]. *)
Definition removeTags (filePath : string) (old_tags : list string)
  : M (list string) :=
  ensure_init ;;
  let* absolutePath := path_resolve filePath in
  let* d := records in
  match JS.get d absolutePath with
  | None => ret []
  | Some r =>
      let tagSet := JS.new_Set old_tags in
      update absolutePath
        (set_tags (List.filter (fun tag => negb (JS.has tagSet tag)) (tags r))) ;;
      let* m := now in
      update absolutePath (set_modified m) ;;
      save ;;
      tags_at absolutePath
  end.

(** [return this.db[absolutePath]?.tags || []] *)
Definition getTags (filePath : string) : M (list string) :=
  ensure_init ;;
  let* absolutePath := path_resolve filePath in
  let* d := records in
  match JS.get d absolutePath with
  | Some r => ret (tags r)
  | None => ret []
  end.

(** The loop body of [findByTags]: whether one entry qualifies. *)
Definition matches (query : list string) (matchAll : bool) (data : TagRecord)
  : bool :=
  let fileTags := JS.new_Set (tags data) in
  if matchAll then JS.every (fun tag => JS.has fileTags tag) query
  else JS.some (fun tag => JS.has fileTags tag) query.

(** [for (const [filePath, data] of Object.entries(this.db))
       if (matches) results.push(filePath)] *)
Definition findByTags (query : list string) (matchAll : bool)
  : M (list string) :=
  ensure_init ;;
  let* d := records in
  ret (foldl (fun (results : list string) e =>
                if matches query matchAll (snd e)
                then (results ++ [fst e])%list else results)
             [] d).

(** [for (const data of Object.values(this.db))
       data.tags.forEach(tag => allTags.add(tag));
     return Array.from(allTags).sort()] *)
Definition listAllTags : M (list string) :=
  ensure_init ;;
  let* d := records in
  let allTags :=
    foldl (fun acc data => JS.add_all acc (tags data)) [] (JS.values d) in
  ret (JS.sort allTags).

(** [return { ...this.db }] *)
Definition listAll : M DB :=
  ensure_init ;;
  records.

(** [delete this.db[absolutePath]; await this.save()] *)
Definition clearTags (filePath : string) : M unit :=
  ensure_init ;;
  let* absolutePath := path_resolve filePath in
  let* d := records in
  set_db (Records (JS.delete d absolutePath)) ;;
  save.

End FileTag.

(** ** What the README documents about tags

    "Tags are normalized on input: they are trimmed and converted to
    lowercase."  The library has no such function; this is the documented
    one ([String.prototype.trim] and [toLowerCase] on code units below 256),
    used only to state what the documentation promises. *)

Module Readme.

Definition is_space (c : ascii) : bool :=
  let n := nat_of_ascii c in
  ((9 <=? n) && (n <=? 13) || (n =? 32) || (n =? 160))%nat.

Fixpoint trim_start (s : string) : string :=
  match s with
  | String c r => if is_space c then trim_start r else s
  | "" => ""
  end.

Definition trim (s : string) : string :=
  String.rev (trim_start (String.rev (trim_start s))).

Definition lower (c : ascii) : ascii :=
  let n := nat_of_ascii c in
  if ((65 <=? n) && (n <=? 90)
      || (192 <=? n) && (n <=? 222) && negb (n =? 215))%nat
  then ascii_of_nat (n + 32) else c.

Fixpoint toLowerCase (s : string) : string :=
  match s with
  | String c r => String (lower c) (toLowerCase r)
  | "" => ""
  end.

Definition normalize (tag : string) : string := toLowerCase (trim tag).

End Readme.

(** ** Durability as the README documents it

    "Database writes are atomic: saves write to a temporary file and rename
    into place."  As a property of the calls a save issues. *)

Module Durability.

(** The directory part of an absolute path. *)
Definition dirname (p : string) : list string :=
  removelast (Path.normalize (Path.split p)).

Definition atomic_replace (target data : string) (cs : list fs_call) : Prop :=
  exists tmp,
    tmp <> target /\ dirname tmp = dirname target /\
    cs = [WriteFile tmp data; Rename tmp target].

End Durability.

(** ** Sample instances and worlds *)

Module Demo.

Definition digit (n : nat) : string := JSON.chr (48 + n mod 10).

(** A clock that advances one millisecond per reading. *)
Definition clock (n : nat) : string :=
  "2024-01-01T00:00:00." ++ digit (n / 100) ++ digit (n / 10) ++ digit n ++ "Z".

(** A world whose regular files are [fs], seen from [/home/u]. *)
Definition world (fs : list (string * string)) : World :=
  mkWorld (list_to_map fs) {["/home"; "/home/u"]} "/home/u" clock 0 [].

(** [new FileTag()] *)
Definition fresh : FileTag.t := FileTag.constructor None.

(** An instance that has loaded [d]. *)
Definition loaded (d : DB) : FileTag.t :=
  FileTag.mk ".filetag.json" (FileTag.Records d).

Definition backing : string := "/home/u/.filetag.json".

Definition one_file : World := world [("/home/u/a.txt", "hello")].

Definition corrupt : World :=
  world [("/home/u/a.txt", "hello"); (backing, "{oops")].

(** The three files of the test suite's search fixture. *)
Definition library : DB :=
  [("/home/u/file1.txt", mkRecord ["work"; "important"] (clock 0) (clock 2));
   ("/home/u/file2.txt", mkRecord ["work"; "draft"] (clock 3) (clock 5));
   ("/home/u/file3.txt", mkRecord ["personal"; "important"] (clock 6) (clock 8))].

Definition stored : World :=
  world [("/home/u/file1.txt", "content1"); (backing, JSON.stringify library)].

End Demo.

(** ** Vocabulary of the statements *)

(** Every public method starts with [if (!this.db) await this.init()].
    [loads s s1 d]: from [s] that step ends normally in [s1], whose [db]
    holds the records [d]. For an instance that has already loaded [d] it
    changes nothing. *)
Definition loads (s s1 : FileTag.t * World) (d : DB) : Prop :=
  FileTag.ensure_init s = (FileTag.Return tt, s1) /\
  FileTag.db (fst s1) = FileTag.Records d.

(** The absolute path of the backing file and its content, if it exists. *)
Definition backing_path (s : FileTag.t * World) : string :=
  Path.resolve (cwd (snd s)) (FileTag.dbPath (fst s)).

Definition backing_file (s : FileTag.t * World) : option string :=
  files (snd s) !! backing_path s.

(** The paths [findByTags] pushes, as a filter over the entries. *)
Definition selected (query : list string) (matchAll : bool) (d : DB)
  : list string :=
  JS.keys (List.filter (fun e => FileTag.matches query matchAll (snd e)) d).

(** The set [listAllTags] accumulates before sorting. *)
Definition all_tags (d : DB) : list string :=
  foldl (fun acc data => JS.add_all acc (tags data)) [] (JS.values d).

(** [t] is a tag of some record of [d]. *)
Definition tagged (d : DB) (t : string) : Prop :=
  exists p r, (p, r) ∈ d /\ t ∈ tags r.

(** Ascending order on strings, strictly. *)
Definition str_lt (a b : string) : Prop := String.le a b /\ a <> b.

(** A path segment as [path.resolve] leaves it: no slash inside, and none
    of the segments it resolves away. *)
Fixpoint no_slash (s : string) : bool :=
  match s with
  | "" => true
  | String c r => negb (Ascii.eqb c "/"%char) && no_slash r
  end.

Definition clean (seg : string) : bool :=
  no_slash seg
  && negb (String.eqb seg "" || String.eqb seg ".") && negb (String.eqb seg "..").

(** The calls a step issued: what the log gained between two worlds. *)
Definition issued (w w' : World) (cs : list fs_call) : Prop :=
  calls w' = (calls w ++ cs)%list.

(** A call as [fs] carries it out in [w]: a write resolves when its path
    is [writable]. *)
Definition resolves (w : World) (c : fs_call) : Prop :=
  match c with
  | WriteFile a _ => FileTag.writable w a = true
  | _ => True
  end.

(** Every write issued between [w] and [w'] is one that resolves. *)
Definition writes_resolve (w w' : World) : Prop :=
  exists cs, issued w w' cs /\ Forall (resolves w) cs.



(** ** Calls of the public interface, and runs of them *)

Inductive method :=
| Init
| Save
| AddTags (filePath : string) (tags : list string)
| RemoveTags (filePath : string) (tags : list string)
| GetTags (filePath : string)
| FindByTags (tags : list string) (matchAll : bool)
| ListAllTags
| ListAll
| ClearTags (filePath : string).

(** The state a call leaves, whatever its outcome. *)
Definition exec (c : method) (s : FileTag.t * World) : FileTag.t * World :=
  match c with
  | Init => snd (FileTag.init s)
  | Save => snd (FileTag.save s)
  | AddTags f ts => snd (FileTag.addTags f ts s)
  | RemoveTags f ts => snd (FileTag.removeTags f ts s)
  | GetTags f => snd (FileTag.getTags f s)
  | FindByTags q m => snd (FileTag.findByTags q m s)
  | ListAllTags => snd (FileTag.listAllTags s)
  | ListAll => snd (FileTag.listAll s)
  | ClearTags f => snd (FileTag.clearTags f s)
  end.

Definition exec_all (cs : list method) (s : FileTag.t * World)
  : FileTag.t * World :=
  foldl (fun s c => exec c s) s cs.

(** Whether a call returned or threw, rather than left the model. *)
Definition modelled {A} (o : FileTag.outcome A) : bool :=
  match o with
  | FileTag.Unmodelled => false
  | _ => true
  end.

Definition within (c : method) (s : FileTag.t * World) : bool :=
  match c with
  | Init => modelled (fst (FileTag.init s))
  | Save => modelled (fst (FileTag.save s))
  | AddTags f ts => modelled (fst (FileTag.addTags f ts s))
  | RemoveTags f ts => modelled (fst (FileTag.removeTags f ts s))
  | GetTags f => modelled (fst (FileTag.getTags f s))
  | FindByTags q m => modelled (fst (FileTag.findByTags q m s))
  | ListAllTags => modelled (fst (FileTag.listAllTags s))
  | ListAll => modelled (fst (FileTag.listAll s))
  | ClearTags f => modelled (fst (FileTag.clearTags f s))
  end.

(** A sequence of calls on one instance, each of which returned or threw;
    [None] once a call leaves the model. *)
Fixpoint run (cs : list method) (s : FileTag.t * World)
  : option (FileTag.t * World) :=
  match cs with
  | [] => Some s
  | c :: cs' => if within c s then run cs' (exec c s) else None
  end.

(** [hoare P Q m]: from a state in [P], [m] ends in a state in [Q],
    whether it returns, throws or leaves the model. *)
Definition hoare {A} (P Q : FileTag.t * World -> Prop) (m : FileTag.M A) : Prop :=
  forall s, P s -> Q (snd (m s)).

(** Keys as a store must have them to be read back: distinct, and none
    starting with a digit. *)
Definition well_keyed (d : DB) : Prop :=
  NoDup (JS.keys d) /\ forallb JSON.plain_key (JS.keys d) = true.

Definition state_ok (s : FileTag.t * World) : Prop :=
  match FileTag.db (fst s) with
  | FileTag.Records d => well_keyed d
  | FileTag.Other _ => True
  end.

(** File system calls that concern no file but [target], except to test
    that a file exists. *)
Definition allowed (target : string) (c : fs_call) : Prop :=
  match c with
  | ReadFile a => a = target
  | WriteFile a _ => a = target
  | Access _ => True
  | Rename _ _ => False
  end.

(** [confined s0 s]: [s] differs from [s0] at most in [db], in the backing
    file of [s0], in later clock readings and in more allowed calls. *)
Definition confined (s0 s : FileTag.t * World) : Prop :=
  FileTag.dbPath (fst s) = FileTag.dbPath (fst s0) /\
  cwd (snd s) = cwd (snd s0) /\
  clock (snd s) = clock (snd s0) /\
  ticks (snd s0) <= ticks (snd s) /\
  (forall q, q <> backing_path s0 -> files (snd s) !! q = files (snd s0) !! q) /\
  exists cs, calls (snd s) = (calls (snd s0) ++ cs)%list /\
             Forall (allowed (backing_path s0)) cs.

(** ** The value a store serializes to *)

Definition encode_record (r : TagRecord) : JSON.value :=
  JSON.Object [("tags", JSON.Array (map JSON.Str (tags r)));
               ("created", JSON.Str (created r));
               ("modified", JSON.Str (modified r))].

Definition encode_members (d : DB) : JS.object JSON.value :=
  map (fun e => (fst e, encode_record (snd e))) d.

Definition encode (d : DB) : JSON.value := JSON.Object (encode_members d).

(** One for each entry and one for each of its tags: a bound on how deep
    the parser nests on the text of a store. *)
Fixpoint weight (d : DB) : nat :=
  match d with
  | [] => 0
  | e :: d' => S (length (tags (snd e))) + weight d'
  end.


(** ** The command line: [bin/filetag.js]

    [main] of the script, from [process.argv.slice(2)] and the world to what
    the process prints, its exit code and the world it leaves. [printHelp()]
    is one event; a run that ends without [process.exit] exits with 0. *)

Module Cli.

Inductive io :=
| Log (line : string)      (* console.log *)
| Err (line : string)      (* console.error *)
| Help.                    (* printHelp() *)

Inductive result :=
| Exited (out : list io) (code : nat) (w : World)
| Beyond (w : World).      (* the library call left the modelled fragment *)

(** [args.indexOf(x)] *)
Fixpoint indexOf (x : string) (args : list string) : option nat :=
  match args with
  | [] => None
  | a :: rest =>
      if String.eqb a x then Some 0
      else match indexOf x rest with
           | Some i => Some (S i)
           | None => None
           end
  end.

(** [args.includes(x)] *)
Definition includes (x : string) (args : list string) : bool :=
  existsb (String.eqb x) args.

(** [args.length === 0 || args[0] === 'help' || args[0] === '--help'
     || args[0] === '-h'] *)
Definition help_requested (args : list string) : bool :=
  match args with
  | [] => true
  | a :: _ => String.eqb a "help" || String.eqb a "--help" || String.eqb a "-h"
  end.

(** [dbIndex = args.indexOf('--db');
     if (dbIndex !== -1 && args[dbIndex + 1])
       { dbPath = args[dbIndex + 1]; args.splice(dbIndex, 2); }]:
    the database path and the arguments left. *)
Definition db_option (args : list string) : string * list string :=
  match indexOf "--db" args with
  | Some i =>
      match args !! S i with
      | Some v =>
          if String.eqb v "" then (".filetag.json", args)
          else (v, (take i args ++ drop (i + 2) args)%list)
      | None => (".filetag.json", args)
      end
  | None => (".filetag.json", args)
  end.

(** [xs.join(', ')] *)
Definition join (xs : list string) : string := String.concat ", " xs.

(** A library call inside [try { ... } catch (error)
    { console.error(`Error: ${error.message}`); process.exit(1); }]. *)
Definition call {A} (m : FileTag.M A) (dbPath : string) (w : World)
    (print : A -> list io) : result :=
  match m (FileTag.constructor (Some dbPath), w) with
  | (FileTag.Return a, s) => Exited (print a) 0 (snd s)
  | (FileTag.Throw (FileTag.Error message), s) =>
      Exited [Err ("Error: " ++ message)] 1 (snd s)
  | (FileTag.Unmodelled, s) => Beyond (snd s)
  end.

Definition or_else (alt : string) (xs : list string) : string :=
  match xs with
  | [] => alt
  | _ => join xs
  end.

(** The lines of the [all] command for one entry. *)
Definition show_entry (e : string * TagRecord) : list io :=
  [Log (JSON.nl ++ fst e ++ ":");
   Log ("  Tags: " ++ (if String.eqb (join (tags (snd e))) "" then "(none)"
                       else join (tags (snd e))));
   Log ("  Created: " ++ created (snd e));
   Log ("  Modified: " ++ modified (snd e))].

Definition main (argv : list string) (w : World) : result :=
  if help_requested argv then Exited [Help] 0 w
  else
    let '(dbPath, args) := db_option argv in
    match args with
    | [] =>
        Exited [Err "Unknown command: undefined";
                Err ("Run " ++ JSON.dq ++ "filetag help" ++ JSON.dq
                     ++ " for usage information")] 1 w
    | command :: rest =>
        if String.eqb command "add" then
          match rest with
          | filePath :: (_ :: _) as tags =>
              call (FileTag.addTags filePath tags) dbPath w
                   (fun result => [Log ("Tags added to " ++ filePath ++ ":");
                                   Log (join result)])
          | _ =>
              Exited [Err "Error: add command requires file path and at least one tag"]
                     1 w
          end
        else if String.eqb command "remove" then
          match rest with
          | filePath :: (_ :: _) as tags =>
              call (FileTag.removeTags filePath tags) dbPath w
                   (fun result => [Log ("Remaining tags for " ++ filePath ++ ":");
                                   Log (or_else "(no tags)" result)])
          | _ =>
              Exited [Err "Error: remove command requires file path and at least one tag"]
                     1 w
          end
        else if String.eqb command "list" then
          match rest with
          | filePath :: _ =>
              call (FileTag.getTags filePath) dbPath w
                   (fun tags => [Log ("Tags for " ++ filePath ++ ":");
                                 Log (or_else "(no tags)" tags)])
          | [] => Exited [Err "Error: list command requires file path"] 1 w
          end
        else if String.eqb command "search" then
          match rest with
          | _ :: _ =>
              let matchAll := includes "--all" args in
              let tags := List.filter (fun arg => negb (String.eqb arg "--all")) rest in
              call (FileTag.findByTags tags matchAll) dbPath w
                   (fun results =>
                      Log ("Files with tag" ++ (if (1 <? length tags)%nat then "s" else "")
                           ++ " " ++ join tags ++ " "
                           ++ (if matchAll then "(all)" else "(any)") ++ ":")
                      :: match results with
                         | [] => [Log "(no files found)"]
                         | _ => map (fun file => Log ("  " ++ file)) results
                         end)
          | [] => Exited [Err "Error: search command requires at least one tag"] 1 w
          end
        else if String.eqb command "tags" then
          call FileTag.listAllTags dbPath w
               (fun tags =>
                  Log "All tags:"
                  :: match tags with
                     | [] => [Log "(no tags)"]
                     | _ => map (fun tag => Log ("  " ++ tag)) tags
                     end)
        else if String.eqb command "all" then
          call FileTag.listAll dbPath w
               (fun all =>
                  Log "All files and tags:"
                  :: match all with
                     | [] => [Log "(no files tagged)"]
                     | _ => concat (map show_entry all)
                     end)
        else if String.eqb command "clear" then
          match rest with
          | filePath :: _ =>
              call (FileTag.clearTags filePath) dbPath w
                   (fun _ => [Log ("All tags cleared from " ++ filePath)])
          | [] => Exited [Err "Error: clear command requires file path"] 1 w
          end
        else
          Exited [Err ("Unknown command: " ++ command);
                  Err ("Run " ++ JSON.dq ++ "filetag help" ++ JSON.dq
                       ++ " for usage information")] 1 w
    end.

End Cli.



(** * Properties *)

(** ** Sets and objects *)

Section JSFacts.
Implicit Types (s xs : list string) (x y : string).

Lemma has_true s x : JS.has s x = true <-> x ∈ s.
Proof. unfold JS.has. apply bool_decide_eq_true. Qed.

Lemma has_false s x : JS.has s x = false <-> x ∉ s.
Proof. unfold JS.has. apply bool_decide_eq_false. Qed.

Lemma elem_of_add s x y : y ∈ JS.add s x <-> y ∈ s \/ y = x.
Proof.
  unfold JS.add. destruct (JS.has s x) eqn:E.
  - apply has_true in E. split; [auto | intros [?| ->]; auto].
  - rewrite elem_of_app, list_elem_of_singleton. tauto.
Qed.

Lemma NoDup_add s x : NoDup s -> NoDup (JS.add s x).
Proof.
  intros Hs. unfold JS.add. destruct (JS.has s x) eqn:E; [done|].
  apply has_false in E. apply NoDup_app. repeat split; [done| |apply NoDup_singleton].
  intros z Hz ->%list_elem_of_singleton. contradiction.
Qed.

Lemma add_present s x : x ∈ s -> JS.add s x = s.
Proof. intros H. unfold JS.add. apply has_true in H. by rewrite H. Qed.

Lemma add_absent s x : x ∉ s -> JS.add s x = (s ++ [x])%list.
Proof. intros H. unfold JS.add. apply has_false in H. by rewrite H. Qed.

Lemma elem_of_add_all xs : forall s y, y ∈ JS.add_all s xs <-> y ∈ s \/ y ∈ xs.
Proof.
  unfold JS.add_all. induction xs as [|x xs IH]; intros s y; simpl.
  - rewrite elem_of_nil. tauto.
  - rewrite IH, elem_of_add, elem_of_cons. tauto.
Qed.

Lemma NoDup_add_all xs : forall s, NoDup s -> NoDup (JS.add_all s xs).
Proof.
  unfold JS.add_all. induction xs as [|x xs IH]; intros s Hs; simpl; [done|].
  apply IH, NoDup_add, Hs.
Qed.

(** Adding what is already there changes nothing, order included. *)
Lemma add_all_absorb xs : forall s, (forall x, x ∈ xs -> x ∈ s) -> JS.add_all s xs = s.
Proof.
  unfold JS.add_all. induction xs as [|x xs IH]; intros s H; simpl; [done|].
  rewrite add_present by (apply H; left).
  apply IH. intros z Hz. apply H. by right.
Qed.

Lemma add_all_fresh xs : forall s, NoDup (s ++ xs) -> JS.add_all s xs = (s ++ xs)%list.
Proof.
  unfold JS.add_all. induction xs as [|x xs IH]; intros s H; simpl.
  - by rewrite app_nil_r.
  - assert (x ∉ s) as Hx.
    { apply NoDup_app in H as (_ & H & _). intros Hin. apply (H x Hin). left. }
    rewrite add_absent by done.
    rewrite IH; rewrite <- app_assoc; done.
Qed.

Lemma elem_of_new_Set xs y : y ∈ JS.new_Set xs <-> y ∈ xs.
Proof. unfold JS.new_Set. rewrite elem_of_add_all, elem_of_nil. tauto. Qed.

Lemma NoDup_new_Set xs : NoDup (JS.new_Set xs).
Proof. apply NoDup_add_all, NoDup_nil_2. Qed.

(** A duplicate-free array survives [Array.from(new Set(xs))] unchanged. *)
Lemma new_Set_NoDup xs : NoDup xs -> JS.new_Set xs = xs.
Proof. intros H. unfold JS.new_Set. by rewrite add_all_fresh. Qed.

(** The union step of [addTags], applied a second time, is the identity. *)
Lemma union_twice old xs :
  let once := JS.add_all (JS.new_Set old) xs in
  JS.add_all (JS.new_Set once) xs = once.
Proof.
  intros once.
  assert (NoDup once) as Hnd by apply NoDup_add_all, NoDup_new_Set.
  rewrite (new_Set_NoDup once Hnd).
  apply add_all_absorb. intros x Hx. apply elem_of_add_all. by right.
Qed.

End JSFacts.

Section ObjectFacts.
Context {V : Type}.
Implicit Types (o : JS.object V) (k : string) (v : V).

Lemma get_set_eq o k v : JS.get (JS.set o k v) k = Some v.
Proof.
  induction o as [|[k' v'] o IH]; simpl.
  - by rewrite String.eqb_refl.
  - destruct (String.eqb k' k) eqn:E; simpl.
    + by rewrite String.eqb_refl.
    + by rewrite E.
Qed.

Lemma get_set_ne o k k' v : k <> k' -> JS.get (JS.set o k v) k' = JS.get o k'.
Proof.
  intros Hne. induction o as [|[k0 v0] o IH]; simpl.
  - by apply String.eqb_neq in Hne as ->.
  - destruct (String.eqb k0 k) eqn:E; simpl.
    + apply String.eqb_eq in E as ->.
      by apply String.eqb_neq in Hne as ->.
    + by rewrite IH.
Qed.

(** Assigning to a present key keeps every key where it was. *)
Lemma keys_set_present o k v :
  is_Some (JS.get o k) -> JS.keys (JS.set o k v) = JS.keys o.
Proof.
  unfold JS.keys. induction o as [|[k' v'] o IH]; simpl; intros [x Hx]; [done|].
  destruct (String.eqb k' k) eqn:E; simpl.
  - by apply String.eqb_eq in E as ->.
  - f_equal. apply IH. eauto.
Qed.

Lemma keys_set_absent o k v :
  JS.get o k = None -> JS.keys (JS.set o k v) = (JS.keys o ++ [k])%list.
Proof.
  unfold JS.keys. induction o as [|[k' v'] o IH]; simpl; intros Hx; [done|].
  destruct (String.eqb k' k) eqn:E; [done|]. simpl. f_equal. by apply IH.
Qed.

Lemma set_set o k v1 v2 : JS.set (JS.set o k v1) k v2 = JS.set o k v2.
Proof.
  induction o as [|[k' v'] o IH]; simpl.
  - by rewrite String.eqb_refl.
  - destruct (String.eqb k' k) eqn:E; simpl.
    + by rewrite String.eqb_refl.
    + by rewrite E, IH.
Qed.

Lemma get_Some_elem_of o k v : JS.get o k = Some v -> (k, v) ∈ o.
Proof.
  induction o as [|[k' v'] o IH]; simpl; [done|].
  destruct (String.eqb k' k) eqn:E.
  - apply String.eqb_eq in E as ->. intros [= ->]. left.
  - intros H. right. by apply IH.
Qed.

Lemma get_None_not_key o k : JS.get o k = None <-> k ∉ JS.keys o.
Proof.
  unfold JS.keys. induction o as [|[k' v'] o IH]; simpl.
  - split; [intros _; apply not_elem_of_nil | done].
  - rewrite not_elem_of_cons. destruct (String.eqb k' k) eqn:E.
    + apply String.eqb_eq in E as ->. split; [done | intros [? _]; done].
    + apply String.eqb_neq in E. rewrite IH. split; [|tauto].
      intros ?; split; [congruence | done].
Qed.

End ObjectFacts.

(** ** The loops of [findByTags] and [listAllTags] *)

Lemma findByTags_loop query matchAll (d : DB) :
  foldl (fun (results : list string) e =>
           if FileTag.matches query matchAll (snd e)
           then (results ++ [fst e])%list else results) [] d
  = selected query matchAll d.
Proof.
  unfold selected, JS.keys.
  enough (forall acc : list string,
    foldl (fun (results : list string) (e : string * TagRecord) =>
             if FileTag.matches query matchAll (snd e)
             then (results ++ [fst e])%list else results) acc d
    = (acc ++ map fst (List.filter (fun e => FileTag.matches query matchAll (snd e)) d))%list)
    as H by apply (H []).
  induction d as [|e d IH]; intros acc; simpl.
  - by rewrite app_nil_r.
  - destruct (FileTag.matches query matchAll (snd e)); rewrite IH; simpl.
    + by rewrite <- app_assoc.
    + done.
Qed.

Lemma matches_any query r :
  FileTag.matches query false r = true <-> exists t, t ∈ query /\ t ∈ tags r.
Proof.
  unfold FileTag.matches, JS.some. rewrite existsb_exists.
  split; intros (t & Ht & H).
  - exists t. split; [by apply list_elem_of_In|].
    by apply elem_of_new_Set, has_true.
  - exists t. split; [by apply list_elem_of_In|].
    by apply has_true, elem_of_new_Set.
Qed.

Lemma matches_all query r :
  FileTag.matches query true r = true <-> forall t, t ∈ query -> t ∈ tags r.
Proof.
  unfold FileTag.matches, JS.every. rewrite forallb_forall.
  split; intros H t Ht.
  - apply elem_of_new_Set, has_true, H. by apply list_elem_of_In.
  - apply has_true, elem_of_new_Set, H. by apply list_elem_of_In.
Qed.

Lemma elem_of_selected query matchAll (d : DB) p :
  p ∈ selected query matchAll d
  <-> exists r, (p, r) ∈ d /\ FileTag.matches query matchAll r = true.
Proof.
  unfold selected, JS.keys. rewrite list_elem_of_In, in_map_iff. split.
  - intros ([p' r] & <- & Hin). apply filter_In in Hin as [Hin Hm].
    exists r. split; [by apply list_elem_of_In | done].
  - intros (r & Hin & Hm). exists (p, r). split; [done|].
    apply filter_In. split; [by apply list_elem_of_In | done].
Qed.

Lemma selected_sublist query matchAll (d : DB) :
  sublist (selected query matchAll d) (JS.keys d).
Proof.
  unfold selected, JS.keys. induction d as [|e d IH]; simpl; [constructor|].
  destruct (FileTag.matches query matchAll (snd e)); simpl.
  - by apply sublist_skip.
  - by apply sublist_cons.
Qed.

Lemma all_tags_acc (vs : list TagRecord) : forall acc,
  NoDup acc ->
  let res := foldl (fun acc data => JS.add_all acc (tags data)) acc vs in
  NoDup res /\ forall t, t ∈ res <-> t ∈ acc \/ exists r, r ∈ vs /\ t ∈ tags r.
Proof.
  induction vs as [|v vs IH]; intros acc Hnd; simpl.
  - split; [done|]. intros t. split; [auto|].
    intros [?|(r & Hr & _)]; [done|]. by apply elem_of_nil in Hr.
  - destruct (IH (JS.add_all acc (tags v)) (NoDup_add_all _ _ Hnd)) as [H1 H2].
    split; [done|]. intros t. rewrite H2, elem_of_add_all. split.
    + intros [[?|?]|(r & Hr & Ht)]; [by left| |].
      * right. exists v. split; [left | done].
      * right. exists r. split; [by right | done].
    + intros [?|(r & Hr & Ht)]; [by left; left|].
      apply elem_of_cons in Hr as [->|Hr]; [by left; right|].
      right. eauto.
Qed.

Lemma NoDup_all_tags (d : DB) : NoDup (all_tags d).
Proof. apply (all_tags_acc (JS.values d) []), NoDup_nil_2. Qed.

Lemma elem_of_all_tags (d : DB) t : t ∈ all_tags d <-> tagged d t.
Proof.
  destruct (all_tags_acc (JS.values d) [] (NoDup_nil_2)) as [_ H].
  unfold all_tags, tagged. rewrite H, elem_of_nil. unfold JS.values. split.
  - intros [[]|(r & Hr & Ht)].
    apply list_elem_of_In, in_map_iff in Hr as ([p r'] & <- & Hin).
    exists p, r'. split; [by apply list_elem_of_In | done].
  - intros (p & r & Hin & Ht). right. exists r. split; [|done].
    apply list_elem_of_In, in_map_iff. exists (p, r). split; [done|].
    by apply list_elem_of_In.
Qed.

(** ** Sorting *)

(** The order of [sort()] is the lexicographic one on code units. *)
Lemma le_empty s : String.le "" s.
Proof. by destruct s. Qed.

Lemma le_lexicographic a s b t :
  String.le (String a s) (String b t)
  <-> (nat_of_ascii a < nat_of_ascii b)%nat \/ (a = b /\ String.le s t).
Proof.
  unfold String.le, String.leb. simpl.
  unfold Ascii.compare, nat_of_ascii.
  destruct (N.compare_spec (N_of_ascii a) (N_of_ascii b)) as [E|E|E].
  - assert (a = b) as ->.
    { rewrite <- (ascii_N_embedding a), <- (ascii_N_embedding b). by rewrite E. }
    split; [by right|]. intros [?|[_ ?]]; [lia|done].
  - split; [intros _; left; lia | done].
  - split; [done|]. intros [?|[-> _]]; lia.
Qed.

Lemma sort_Sorted (xs : list string) : Sorted String.le (JS.sort xs).
Proof. unfold JS.sort. apply Sorted_merge_sort; apply _. Qed.

Lemma sort_Permutation (xs : list string) : JS.sort xs ≡ₚ xs.
Proof. unfold JS.sort. apply merge_sort_Permutation. Qed.

Lemma Sorted_strict (xs : list string) :
  Sorted String.le xs -> NoDup xs -> Sorted str_lt xs.
Proof.
  induction 1 as [|x xs Hs IH Hhd]; intros Hnd; [constructor|].
  apply NoDup_cons in Hnd as [Hx Hnd]. constructor; [by apply IH|].
  destruct Hhd as [|y ys Hxy]; constructor. split; [done|].
  intros ->. apply Hx. left.
Qed.

(** Two sorted duplicate-free lists with the same elements are the same list. *)
Lemma sort_unique (xs ys : list string) :
  NoDup xs -> NoDup ys -> (forall t, t ∈ xs <-> t ∈ ys) -> JS.sort xs = JS.sort ys.
Proof.
  intros Hx Hy H. apply (Sorted_unique String.le); try apply sort_Sorted.
  rewrite !sort_Permutation. by apply NoDup_Permutation.
Qed.

(** ** Running the methods *)

Arguments Path.resolve : simpl never.
Arguments JSON.stringify : simpl never.
Arguments JSON.parse : simpl never.

Import FileTag.

Section Steps.
Variables (p : string) (d : DB) (w : World).

Lemma ensure_init_loaded :
  ensure_init (mk p (Records d), w) = (Return tt, (mk p (Records d), w)).
Proof. reflexivity. Qed.

Lemma loads_loaded : loads (mk p (Records d), w) (mk p (Records d), w) d.
Proof. split; reflexivity. Qed.

Lemma save_loaded :
  save (mk p (Records d), w)
  = (Return tt,
     (mk p (Records d), written (Path.resolve (cwd w) p) (JSON.stringify d) w)).
Proof. reflexivity. Qed.

End Steps.

(** A method run from [s] is its body run from the loaded state. *)
Lemma after_load {A} (k : M A) s s1 d :
  loads s s1 d -> (ensure_init ;; k) s = k s1.
Proof. intros [H _]. unfold bind. by rewrite H. Qed.

Lemma loads_shape s s1 d :
  loads s s1 d -> s1 = (mk (dbPath (fst s1)) (Records d), snd s1).
Proof. intros [_ H]. destruct s1 as [[q v] w]. simpl in *. by subst. Qed.

Lemma findByTags_run query matchAll s s1 d :
  loads s s1 d ->
  findByTags query matchAll s = (Return (selected query matchAll d), s1).
Proof.
  intros H. unfold findByTags. rewrite (after_load _ _ _ _ H).
  rewrite (loads_shape _ _ _ H). unfold bind. simpl.
  by rewrite findByTags_loop.
Qed.

Lemma listAllTags_run s s1 d :
  loads s s1 d -> listAllTags s = (Return (JS.sort (all_tags d)), s1).
Proof.
  intros H. unfold listAllTags. rewrite (after_load _ _ _ _ H).
  by rewrite (loads_shape _ _ _ H).
Qed.

Lemma getTags_run f s s1 d :
  loads s s1 d ->
  getTags f s
  = (Return (match JS.get d (Path.resolve (cwd (snd s1)) f) with
             | Some r => tags r
             | None => []
             end), s1).
Proof.
  intros H. unfold getTags. rewrite (after_load _ _ _ _ H).
  rewrite (loads_shape _ _ _ H). unfold bind. simpl.
  by destruct (JS.get d _).
Qed.


(** ** [path.resolve] returns a path that resolves to itself *)

Section PathFacts.
Implicit Types (cur s seg : string) (segs stack : list string).

Lemma append_cons x a b : (String x a ++ b)%string = String x (a ++ b).
Proof. reflexivity. Qed.

Lemma append_assoc a b c : ((a ++ b) ++ c)%string = (a ++ (b ++ c))%string.
Proof.
  induction a as [|x a IH]; [done|]. by rewrite !append_cons, IH.
Qed.

Lemma append_nil_r a : (a ++ "")%string = a.
Proof. induction a as [|x a IH]; [done|]. by rewrite append_cons, IH. Qed.

Lemma no_slash_append a b : no_slash (a ++ b) = no_slash a && no_slash b.
Proof.
  induction a as [|x a IH]; [done|]. rewrite append_cons. simpl.
  rewrite IH. by rewrite andb_assoc.
Qed.

Lemma split_go_no_slash s : forall cur,
  no_slash cur = true -> Forall (fun seg => no_slash seg = true) (Path.split_go cur s).
Proof.
  induction s as [|c s IH]; intros cur Hc; simpl.
  - by constructor.
  - destruct (Ascii.eqb c "/") eqn:E.
    + constructor; [done|]. by apply IH.
    + apply IH. rewrite no_slash_append, Hc. simpl. by rewrite E.
Qed.

Lemma split_go_append x : forall cur rest,
  no_slash x = true ->
  Path.split_go cur (x ++ rest) = Path.split_go (cur ++ x) rest.
Proof.
  induction x as [|c x IH]; intros cur rest H; simpl.
  - by rewrite append_nil_r.
  - simpl in H. apply andb_true_iff in H as [Hc Hx].
    apply negb_true_iff in Hc. rewrite Hc, IH by done.
    by rewrite append_assoc.
Qed.

Lemma split_go_concat segs : forall cur seg,
  Forall (fun x => no_slash x = true) (seg :: segs) ->
  Path.split_go cur (String.concat "/" (seg :: segs)) = (cur ++ seg)%string :: segs.
Proof.
  induction segs as [|y segs IH]; intros cur seg H.
  - apply Forall_cons in H as [H _]. simpl.
    rewrite <- (append_nil_r seg) at 1. rewrite split_go_append by done.
    reflexivity.
  - apply Forall_cons in H as [H H']. 
    change (String.concat "/" (seg :: y :: segs))
      with (seg ++ "/" ++ String.concat "/" (y :: segs))%string.
    rewrite split_go_append by done. 
    change (Path.split_go (cur ++ seg) ("/" ++ String.concat "/" (y :: segs)))
      with ((cur ++ seg)%string :: Path.split_go "" (String.concat "/" (y :: segs))).
    by rewrite IH.
Qed.

Lemma step_clean stack seg :
  clean seg = true -> Path.step stack seg = (stack ++ [seg])%list.
Proof.
  unfold clean, Path.step. intros H.
  apply andb_true_iff in H as [H H2]. apply andb_true_iff in H as [_ H1].
  apply negb_true_iff in H1, H2. by rewrite H1, H2.
Qed.

Lemma normalize_clean_id segs : forall stack,
  Forall (fun x => clean x = true) segs ->
  foldl Path.step stack segs = (stack ++ segs)%list.
Proof.
  induction segs as [|x segs IH]; intros stack H; simpl.
  - by rewrite app_nil_r.
  - apply Forall_cons in H as [Hx H]. rewrite step_clean, IH by done.
    by rewrite <- app_assoc.
Qed.

Lemma Forall_removelast {A} (P : A -> Prop) (l : list A) :
  Forall P l -> Forall P (removelast l).
Proof.
  induction 1 as [|x l Hx Hl IH]; simpl; [constructor|].
  destruct l; [constructor | by constructor].
Qed.

Lemma normalize_is_clean segs : forall stack,
  Forall (fun x => no_slash x = true) segs ->
  Forall (fun x => clean x = true) stack ->
  Forall (fun x => clean x = true) (foldl Path.step stack segs).
Proof.
  induction segs as [|x segs IH]; intros stack H Hs; simpl; [done|].
  apply Forall_cons in H as [Hx H]. apply IH; [done|].
  unfold Path.step.
  destruct (String.eqb x "" || String.eqb x ".") eqn:E1; [done|].
  destruct (String.eqb x "..") eqn:E2; [by apply Forall_removelast|].
  apply Forall_app. split; [done|]. constructor; [|constructor].
  unfold clean. by rewrite Hx, E1, E2.
Qed.

Lemma resolve_clean dir segs :
  Forall (fun x => clean x = true) segs ->
  Path.resolve dir ("/" ++ String.concat "/" segs)
  = ("/" ++ String.concat "/" segs)%string.
Proof.
  intros H. unfold Path.resolve. simpl Path.is_absolute. cbv iota.
  f_equal. f_equal. unfold Path.normalize, Path.split.
  change (Path.split_go "" ("/" ++ String.concat "/" segs))
    with ("" :: Path.split_go "" (String.concat "/" segs)).
  destruct segs as [|x segs]; [reflexivity|].
  rewrite split_go_concat.
  - change ("" ++ x)%string with x.
    change (foldl Path.step [] ("" :: x :: segs))
      with (foldl Path.step [] (x :: segs)).
    by rewrite normalize_clean_id.
  - eapply Forall_impl; [exact H|]. intros y Hy. unfold clean in Hy.
    apply andb_true_iff in Hy as [Hy _]. by apply andb_true_iff in Hy as [Hy _].
Qed.


Lemma resolve_idem dir dir' f :
  Path.resolve dir (Path.resolve dir' f) = Path.resolve dir' f.
Proof.
  unfold Path.resolve at 2 3. apply resolve_clean.
  apply normalize_is_clean; [|constructor].
  destruct (Path.is_absolute f).
  - by apply split_go_no_slash.
  - apply Forall_app. split; by apply split_go_no_slash.
Qed.

End PathFacts.

(** ** [init] *)

Section Init.
Variables (p : string) (v : db_value) (w : World).

Lemma init_absent :
  files w !! Path.resolve (cwd w) p = None ->
  init (mk p v, w)
  = (Return tt,
     (mk p (Records []),
      written (Path.resolve (cwd w) p) "{}"
              (log (ReadFile (Path.resolve (cwd w) p)) w))).
Proof. intros H. unfold init, bind. simpl. by rewrite H. Qed.

Lemma init_syntax_error text :
  files w !! Path.resolve (cwd w) p = Some text ->
  JSON.parse text = JSON.SyntaxError ->
  init (mk p v, w)
  = (Return tt,
     (mk p (Records []),
      written (Path.resolve (cwd w) p) "{}"
              (log (ReadFile (Path.resolve (cwd w) p)) w))).
Proof. intros H E. unfold init, bind. simpl. by rewrite H, E. Qed.


End Init.

Lemma ensure_init_skip s :
  unloaded (db (fst s)) = false -> ensure_init s = (Return tt, s).
Proof. intros H. unfold ensure_init, bind. simpl. by rewrite H. Qed.

Lemma ensure_init_run s :
  unloaded (db (fst s)) = true -> ensure_init s = init s.
Proof. intros H. unfold ensure_init, bind. simpl. by rewrite H. Qed.

(** A method run from [s] does what it does from the state [s] loads into. *)
Lemma loads_again s s1 d : loads s s1 d -> loads s1 s1 d.
Proof.
  intros H. rewrite (loads_shape _ _ _ H). apply loads_loaded.
Qed.

(** *** [removeTags] and [addTags] from a loaded instance *)

Section Mutations.
Variables (p : string) (d : DB) (w : World) (f : string).

Lemma removeTags_untracked ts :
  JS.get d (Path.resolve (cwd w) f) = None ->
  removeTags f ts (mk p (Records d), w) = (Return [], (mk p (Records d), w)).
Proof. intros H. unfold removeTags, bind. simpl. by rewrite H. Qed.

Lemma removeTags_tracked ts r :
  JS.get d (Path.resolve (cwd w) f) = Some r ->
  let kept := List.filter (fun tag => negb (JS.has (JS.new_Set ts) tag)) (tags r) in
  let d' := JS.set d (Path.resolve (cwd w) f)
                   (mkRecord kept (created r) (clock w (ticks w))) in
  removeTags f ts (mk p (Records d), w)
  = (Return kept,
     (mk p (Records d'),
      written (Path.resolve (cwd w) p) (JSON.stringify d') (tick w))).
Proof.
  intros H kept d'. unfold removeTags, bind. simpl. rewrite H.
  unfold update, tags_at, bind. simpl. rewrite H. simpl.
  rewrite get_set_eq. simpl. rewrite set_set, get_set_eq. reflexivity.
Qed.

Lemma exists_at_file a : is_Some (files w !! a) -> exists_at w a = true.
Proof. intros H. unfold exists_at. by rewrite bool_decide_eq_true_2. Qed.

Lemma exists_at_written a b data :
  exists_at w a = true -> exists_at (written b data w) a = true.
Proof.
  unfold exists_at. rewrite !orb_true_iff, !bool_decide_eq_true.
  intros [H|H]; [left|by right]. simpl.
  by apply lookup_insert_is_Some', or_intror.
Qed.


Lemma addTags_tracked ts r :
  exists_at w (Path.resolve (cwd w) f) = true ->
  JS.get d (Path.resolve (cwd w) f) = Some r ->
  let union := JS.add_all (JS.new_Set (tags r)) ts in
  let d' := JS.set d (Path.resolve (cwd w) f)
                   (mkRecord union (created r) (clock w (ticks w))) in
  addTags f ts (mk p (Records d), w)
  = (Return union,
     (mk p (Records d'),
      written (Path.resolve (cwd w) p) (JSON.stringify d')
              (tick (log (Access (Path.resolve (cwd w) f)) w)))).
Proof.
  intros Hf H union d'. unfold addTags, bind. simpl. rewrite resolve_idem.
  rewrite Hf. simpl. rewrite H.
  unfold update, tags_at, bind. simpl.
  repeat (first [rewrite H | rewrite get_set_eq | rewrite set_set]; simpl).
  reflexivity.
Qed.

Lemma addTags_untracked ts :
  exists_at w (Path.resolve (cwd w) f) = true ->
  JS.get d (Path.resolve (cwd w) f) = None ->
  let union := JS.add_all (JS.new_Set []) ts in
  let d' := JS.set d (Path.resolve (cwd w) f)
                   (mkRecord union (clock w (ticks w)) (clock w (S (S (ticks w))))) in
  addTags f ts (mk p (Records d), w)
  = (Return union,
     (mk p (Records d'),
      written (Path.resolve (cwd w) p) (JSON.stringify d')
              (tick (tick (tick (log (Access (Path.resolve (cwd w) f)) w)))))).
Proof.
  intros Hf H union d'. unfold addTags, bind. simpl. rewrite resolve_idem.
  rewrite Hf. simpl. rewrite H.
  unfold update, tags_at, bind. simpl.
  repeat (first [rewrite get_set_eq | rewrite set_set]; simpl).
  reflexivity.
Qed.

End Mutations.

(** * The claims *)

(** ** Queries *)

Lemma selected_nil_all (d : DB) : selected [] true d = JS.keys d.
Proof.
  unfold selected, JS.keys. f_equal.
  induction d as [|e d IH]; [done|]. simpl. f_equal. apply IH.
Qed.

Lemma selected_nil_any (d : DB) : selected [] false d = [].
Proof. unfold selected, JS.keys. by induction d as [|e d IH]. Qed.

(** C5. With an empty query, [findByTags([], true)] returns every tracked
    path, in store order, and [findByTags([], false)] returns none; neither
    changes anything beyond the initial load. *)
Theorem findByTags_empty_query s s1 d :
  loads s s1 d ->
  findByTags [] true s = (Return (JS.keys d), s1) /\
  findByTags [] false s = (Return [], s1).
Proof.
  intros H. rewrite !(findByTags_run _ _ _ _ _ H).
  by rewrite selected_nil_all, selected_nil_any.
Qed.

Lemma findByTags_empty_query_witness :
  findByTags [] true (Demo.fresh, Demo.stored)
  = (Return ["/home/u/file1.txt"; "/home/u/file2.txt"; "/home/u/file3.txt"],
     snd (ensure_init (Demo.fresh, Demo.stored))) /\
  findByTags [] false (Demo.fresh, Demo.stored)
  = (Return [], snd (ensure_init (Demo.fresh, Demo.stored))).
Proof.
  apply (findByTags_empty_query _ _ Demo.library).
  split; vm_compute; reflexivity.
Defined.

(** C6. [findByTags(tags, false)] returns exactly the tracked paths whose
    tags share a member with the query, and [findByTags(tags, true)] exactly
    those whose tags include every member of the query; both list the
    paths in store order. *)
Theorem findByTags_any_all s s1 d query :
  loads s s1 d ->
  exists any all,
    findByTags query false s = (Return any, s1) /\
    findByTags query true s = (Return all, s1) /\
    (forall p, p ∈ any <->
       exists r, (p, r) ∈ d /\ exists t, t ∈ query /\ t ∈ tags r) /\
    (forall p, p ∈ all <->
       exists r, (p, r) ∈ d /\ forall t, t ∈ query -> t ∈ tags r) /\
    sublist any (JS.keys d) /\ sublist all (JS.keys d).
Proof.
  intros H. exists (selected query false d), (selected query true d).
  rewrite !(findByTags_run _ _ _ _ _ H).
  repeat split; try apply selected_sublist.
  - intros (r & Hr & Hm)%elem_of_selected. exists r. split; [done|].
    by apply matches_any.
  - intros (r & Hr & Hm). apply elem_of_selected. exists r. split; [done|].
    by apply matches_any.
  - intros (r & Hr & Hm)%elem_of_selected. exists r. split; [done|].
    by apply matches_all.
  - intros (r & Hr & Hm). apply elem_of_selected. exists r. split; [done|].
    by apply matches_all.
Qed.

Lemma findByTags_any_all_witness :
  exists any all,
    findByTags ["work"; "important"] false (Demo.fresh, Demo.stored)
    = (Return any, snd (ensure_init (Demo.fresh, Demo.stored))) /\
    findByTags ["work"; "important"] true (Demo.fresh, Demo.stored)
    = (Return all, snd (ensure_init (Demo.fresh, Demo.stored))) /\
    (forall p, p ∈ any <->
       exists r, (p, r) ∈ Demo.library /\
                 exists t, t ∈ ["work"; "important"] /\ t ∈ tags r) /\
    (forall p, p ∈ all <->
       exists r, (p, r) ∈ Demo.library /\
                 forall t, t ∈ ["work"; "important"] -> t ∈ tags r) /\
    sublist any (JS.keys Demo.library) /\ sublist all (JS.keys Demo.library).
Proof.
  apply (findByTags_any_all (Demo.fresh, Demo.stored)).
  split; vm_compute; reflexivity.
Defined.

(** C9. [listAllTags()] returns the union of the records' tags: every tag
    of every record and nothing else, each once, in strictly ascending
    order; two stores with the same tags give the same list, whatever the
    order in which the tags were added. *)
Theorem listAllTags_sorted_union s s1 d :
  loads s s1 d ->
  exists res,
    listAllTags s = (Return res, s1) /\
    (forall t, t ∈ res <-> tagged d t) /\
    NoDup res /\
    Sorted str_lt res /\
    (forall s' s1' d',
       loads s' s1' d' -> (forall t, tagged d' t <-> tagged d t) ->
       listAllTags s' = (Return res, s1')).
Proof.
  intros H. exists (JS.sort (all_tags d)).
  assert (NoDup (JS.sort (all_tags d))) as Hnd.
  { rewrite sort_Permutation. apply NoDup_all_tags. }
  repeat split.
  - by apply listAllTags_run.
  - rewrite sort_Permutation. apply elem_of_all_tags.
  - rewrite sort_Permutation. apply elem_of_all_tags.
  - done.
  - apply Sorted_strict; [apply sort_Sorted | done].
  - intros s' s1' d' H' Hsame. rewrite (listAllTags_run _ _ _ H').
    f_equal. f_equal. apply sort_unique; try apply NoDup_all_tags.
    intros t. rewrite !elem_of_all_tags. apply Hsame.
Qed.

Lemma listAllTags_sorted_union_witness :
  exists res,
    listAllTags (Demo.fresh, Demo.stored)
    = (Return res, snd (ensure_init (Demo.fresh, Demo.stored))) /\
    (forall t, t ∈ res <-> tagged Demo.library t) /\
    NoDup res /\
    Sorted str_lt res /\
    (forall s' s1' d',
       loads s' s1' d' -> (forall t, tagged d' t <-> tagged Demo.library t) ->
       listAllTags s' = (Return res, s1')).
Proof.
  apply (listAllTags_sorted_union (Demo.fresh, Demo.stored)).
  split; vm_compute; reflexivity.
Defined.

Example listAllTags_library :
  fst (listAllTags (Demo.fresh, Demo.stored))
  = Return ["draft"; "important"; "personal"; "work"].
Proof. vm_compute. reflexivity. Qed.

(** ** Mutations *)

Lemma removeTags_from_loaded f ts s s1 d :
  loads s s1 d -> removeTags f ts s = removeTags f ts s1.
Proof.
  intros H. unfold removeTags.
  by rewrite (after_load _ _ _ _ H), (after_load _ _ _ _ (loads_again _ _ _ H)).
Qed.

Lemma addTags_from_loaded f ts s s1 d :
  loads s s1 d -> addTags f ts s = addTags f ts s1.
Proof.
  intros H. unfold addTags.
  by rewrite (after_load _ _ _ _ H), (after_load _ _ _ _ (loads_again _ _ _ H)).
Qed.

(** A call of [addTags] that returns has loaded records and found the file. *)
Lemma addTags_returns_inv f ts s l s2 :
  addTags f ts s = (Return l, s2) ->
  exists p d w,
    loads s (mk p (Records d), w) d /\
    exists_at w (Path.resolve (cwd w) f) = true.
Proof.
  unfold addTags, bind at 1.
  destruct (ensure_init s) as [[[]| |] [[p v] w]] eqn:E; try discriminate.
  unfold bind. simpl. rewrite resolve_idem.
  destruct (exists_at w (Path.resolve (cwd w) f)) eqn:B; simpl; [|discriminate].
  destruct v as [d|j]; simpl; [|discriminate].
  intros _. exists p, d, w. by split.
Qed.

(** What a returning [addTags] leaves behind, read off the two cases. *)
Lemma addTags_loaded_result p d w f ts :
  exists_at w (Path.resolve (cwd w) f) = true ->
  exists d' w' r',
    addTags f ts (mk p (Records d), w) = (Return (tags r'), (mk p (Records d'), w')) /\
    JS.get d' (Path.resolve (cwd w) f) = Some r' /\
    tags r' = JS.add_all
                (JS.new_Set (match JS.get d (Path.resolve (cwd w) f) with
                             | Some r => tags r
                             | None => []
                             end)) ts /\
    cwd w' = cwd w /\
    exists_at w' (Path.resolve (cwd w) f) = true.
Proof.
  intros Hf. destruct (JS.get d (Path.resolve (cwd w) f)) as [r|] eqn:G.
  - eexists _, _, (mkRecord _ _ _). split; [by apply addTags_tracked|].
    rewrite get_set_eq. repeat split; try reflexivity.
    by apply exists_at_written.
  - eexists _, _, (mkRecord _ _ _). split; [by apply addTags_untracked|].
    rewrite get_set_eq. repeat split; try reflexivity.
    by apply exists_at_written.
Qed.

(** C7. [addTags] is idempotent on the tag list: when [addTags(f, [t])]
    returns a list, calling it again returns that same list. *)
Theorem addTags_idempotent f t s l s1 :
  addTags f [t] s = (Return l, s1) ->
  exists s2, addTags f [t] s1 = (Return l, s2).
Proof.
  intros E. destruct (addTags_returns_inv _ _ _ _ _ E) as (p & d & w & Hl & Hf).
  rewrite (addTags_from_loaded _ _ _ _ _ Hl) in E.
  destruct (addTags_loaded_result p d w f [t] Hf)
    as (d1 & w1 & r1 & E1 & G1 & T1 & C1 & F1).
  rewrite E1 in E. injection E as <- <-.
  rewrite <- C1 in F1, G1.
  destruct (addTags_loaded_result p d1 w1 f [t] F1)
    as (d2 & w2 & r2 & E2 & _ & T2 & _).
  exists (mk p (Records d2), w2). rewrite E2. f_equal. f_equal.
  rewrite T2, G1, T1. apply union_twice.
Qed.

Lemma addTags_idempotent_witness :
  exists s2,
    addTags "a.txt" ["work"] (snd (addTags "a.txt" ["work"] (Demo.fresh, Demo.one_file)))
    = (Return ["work"], s2).
Proof.
  apply (addTags_idempotent "a.txt" "work" (Demo.fresh, Demo.one_file)).
  vm_compute. reflexivity.
Defined.

(** For an instance that has loaded its records and a file that exists,
    [addTags] does return. *)
Lemma addTags_returns f ts s s1 d :
  loads s s1 d ->
  is_Some (files (snd s1) !! Path.resolve (cwd (snd s1)) f) ->
  exists l s2, addTags f ts s = (Return l, s2).
Proof.
  intros H Hf. rewrite (addTags_from_loaded _ _ _ _ _ H), (loads_shape _ _ _ H).
  destruct (addTags_loaded_result (dbPath (fst s1)) d (snd s1) f ts
              (exists_at_file _ _ Hf))
    as (d' & w' & r' & E & _). eauto.
Qed.

(** C8. When [removeTags] removes every tag of a record, the record stays
    in the store at its place, with an empty tag list, its [created]
    unchanged and [modified] set to the time of the call; the other records
    are untouched and the store is persisted. *)
Theorem removeTags_keeps_emptied_record f ts s s1 d r :
  loads s s1 d ->
  JS.get d (Path.resolve (cwd (snd s1)) f) = Some r ->
  (forall t, t ∈ tags r -> t ∈ ts) ->
  exists d' w',
    removeTags f ts s = (Return [], (mk (dbPath (fst s1)) (Records d'), w')) /\
    JS.get d' (Path.resolve (cwd (snd s1)) f)
    = Some (mkRecord [] (created r) (clock (snd s1) (ticks (snd s1)))) /\
    JS.keys d' = JS.keys d /\
    (forall k, k <> Path.resolve (cwd (snd s1)) f -> JS.get d' k = JS.get d k) /\
    files w' = <[backing_path s1 := JSON.stringify d']> (files (snd s1)).
Proof.
  intros H G Hall.
  rewrite (removeTags_from_loaded _ _ _ _ _ H), (loads_shape _ _ _ H).
  rewrite (removeTags_tracked _ _ _ _ _ _ G).
  assert (List.filter (fun tag => negb (JS.has (JS.new_Set ts) tag)) (tags r) = [])
    as ->.
  { clear G. induction (tags r) as [|x xs IH]; [done|]. simpl.
    assert (JS.has (JS.new_Set ts) x = true) as ->.
    { apply has_true, elem_of_new_Set, Hall. left. }
    simpl. apply IH. intros t Ht. apply Hall. by right. }
  eexists _, _. split; [reflexivity|].
  rewrite get_set_eq. repeat split.
  - apply keys_set_present. eauto.
  - intros k Hk. by apply get_set_ne.
Qed.

Lemma removeTags_keeps_emptied_record_witness :
  exists d' w',
    removeTags "file2.txt" ["draft"; "work"; "other"] (Demo.fresh, Demo.stored)
    = (Return [], (mk ".filetag.json" (Records d'), w')) /\
    JS.get d' "/home/u/file2.txt" = Some (mkRecord [] (Demo.clock 3) (Demo.clock 0)) /\
    JS.keys d' = JS.keys Demo.library /\
    (forall k, k <> "/home/u/file2.txt" -> JS.get d' k = JS.get Demo.library k) /\
    files w' = <[Demo.backing := JSON.stringify d']> (files Demo.stored).
Proof.
  apply (removeTags_keeps_emptied_record "file2.txt" ["draft"; "work"; "other"]
           (Demo.fresh, Demo.stored)
           (snd (ensure_init (Demo.fresh, Demo.stored))) Demo.library
           (mkRecord ["work"; "draft"] (Demo.clock 3) (Demo.clock 5))).
  - split; vm_compute; reflexivity.
  - vm_compute. reflexivity.
  - intros t Ht. apply list_elem_of_In in Ht. apply list_elem_of_In.
    simpl in *. tauto.
Defined.

(** C10. For a path without a record in a loaded store, [removeTags]
    returns the empty list and changes nothing: the instance and the world
    are the same afterwards, so no file system call was issued and the
    clock was not read. *)
Theorem removeTags_untracked_no_effect p d w f ts :
  JS.get d (Path.resolve (cwd w) f) = None ->
  removeTags f ts (mk p (Records d), w) = (Return [], (mk p (Records d), w)).
Proof. apply removeTags_untracked. Qed.

Lemma removeTags_untracked_no_effect_witness :
  removeTags "notes.txt" ["work"] (Demo.loaded Demo.library, Demo.stored)
  = (Return [], (Demo.loaded Demo.library, Demo.stored)).
Proof.
  apply (removeTags_untracked_no_effect ".filetag.json" Demo.library Demo.stored).
  vm_compute. reflexivity.
Defined.

(** In the tracked case the same call reads the clock and writes the
    backing file. *)
Lemma removeTags_tracked_persists p d w f ts r :
  JS.get d (Path.resolve (cwd w) f) = Some r ->
  exists l d' w',
    removeTags f ts (mk p (Records d), w) = (Return l, (mk p (Records d'), w')) /\
    ticks w' = S (ticks w) /\
    calls w'
    = (calls w ++ [WriteFile (Path.resolve (cwd w) p) (JSON.stringify d')])%list.
Proof.
  intros G. eexists _, _, _. split; [by apply removeTags_tracked|]. by split.
Qed.

(** ** A file that does not exist *)

Lemma addTags_body_missing f ts s s1 :
  ensure_init s = (Return tt, s1) ->
  exists_at (snd s1) (Path.resolve (cwd (snd s1)) f) = false ->
  addTags f ts s
  = (Throw (Error ("File not found: " ++ Path.resolve (cwd (snd s1)) f)),
     (fst s1, log (Access (Path.resolve (cwd (snd s1)) f)) (snd s1))).
Proof.
  intros H Hf. unfold addTags, bind at 1. rewrite H.
  unfold bind. simpl. rewrite resolve_idem, Hf. reflexivity.
Qed.

Lemma exists_at_written_ne w a b data :
  a <> b -> exists_at (written b data w) a = exists_at w a.
Proof.
  intros H. unfold exists_at. simpl. f_equal.
  apply bool_decide_ext. by rewrite lookup_insert_ne.
Qed.

(** The load wrote a new store, then the path is not found. *)
Lemma addTags_missing_after_reset p v w f ts :
  unloaded v = true ->
  (files w !! Path.resolve (cwd w) p = None \/
   exists text, files w !! Path.resolve (cwd w) p = Some text /\
                JSON.parse text = JSON.SyntaxError) ->
  exists_at w (Path.resolve (cwd w) f) = false ->
  Path.resolve (cwd w) f <> Path.resolve (cwd w) p ->
  addTags f ts (mk p v, w)
  = (Throw (Error ("File not found: " ++ Path.resolve (cwd w) f)),
     (mk p (Records []),
      log (Access (Path.resolve (cwd w) f))
          (written (Path.resolve (cwd w) p) "{}"
                   (log (ReadFile (Path.resolve (cwd w) p)) w)))).
Proof.
  intros U Hb Hf Hne.
  pose proof (ensure_init_run (mk p v, w) U) as E.
  assert (init (mk p v, w)
          = (Return tt,
             (mk p (Records []),
              written (Path.resolve (cwd w) p) "{}"
                      (log (ReadFile (Path.resolve (cwd w) p)) w)))) as Ei.
  { destruct Hb as [Hb|(text & Hb & Hp)];
      [apply init_absent, Hb | apply (init_syntax_error _ _ _ _ Hb Hp)]. }
  rewrite Ei in E. rewrite (addTags_body_missing _ _ _ _ E); [done|].
  cbn [snd]. change (cwd (written _ _ _)) with (cwd w).
  by rewrite exists_at_written_ne.
Qed.

Lemma writes_resolve_reset w a b :
  writable w a = true ->
  writes_resolve w (log (Access b) (written a "{}" (log (ReadFile a) w))).
Proof.
  intros H. exists [ReadFile a; WriteFile a "{}"; Access b]. split.
  - unfold issued. simpl. by rewrite <- !app_assoc.
  - by repeat constructor.
Qed.




(** The same call on first use, with no backing file. *)
Example addTags_first_use_creates_store :
  let res := addTags "nope.txt" ["x"] (Demo.fresh, Demo.one_file) in
  fst res = Throw (Error "File not found: /home/u/nope.txt") /\
  db (fst (snd res)) = Records [] /\
  backing_file (Demo.fresh, Demo.one_file) = None /\
  backing_file (snd res) = Some "{}".
Proof. vm_compute. repeat split. Qed.

(** ** Where the library departs from its documentation *)

(** C1. [save()] issues one call: [writeFile] of the serialized store on the
    backing path itself. There is no temporary file and no rename, so the
    calls are not the documented write-then-rename. *)
Theorem save_overwrites_in_place p d w :
  exists w',
    save (mk p (Records d), w) = (Return tt, (mk p (Records d), w')) /\
    issued w w' [WriteFile (Path.resolve (cwd w) p) (JSON.stringify d)] /\
    files w' = <[Path.resolve (cwd w) p := JSON.stringify d]> (files w) /\
    forall cs, issued w w' cs ->
      ~ Durability.atomic_replace (Path.resolve (cwd w) p) (JSON.stringify d) cs.
Proof.
  eexists. split; [apply save_loaded|]. repeat split.
  intros cs Hcs (tmp & Hne & _ & ->). unfold issued in Hcs. simpl in Hcs.
  apply app_inv_head in Hcs. discriminate.
Qed.

Example save_library_calls :
  calls (snd (snd (save (Demo.loaded Demo.library, Demo.one_file))))
  = [WriteFile Demo.backing (JSON.stringify Demo.library)].
Proof. vm_compute. reflexivity. Qed.

(** C2. [addTags] stores each tag as given: [addTags(f, [" Work "])] then
    [getTags(f)] returns [[" Work "]], not [["work"]], and tags that differ
    only by case and surrounding blanks are stored side by side. *)
Theorem addTags_stores_tags_verbatim :
  let s0 := (Demo.fresh, Demo.one_file) in
  let s1 := snd (addTags "a.txt" [" Work "] s0) in
  let s2 := snd (addTags "a.txt" ["work"; "WORK "] s1) in
  fst (addTags "a.txt" [" Work "] s0) = Return [" Work "] /\
  fst (getTags "a.txt" s1) = Return [" Work "] /\
  fst (getTags "a.txt" s2) = Return [" Work "; "work"; "WORK "] /\
  map Readme.normalize [" Work "; "work"; "WORK "] = ["work"; "work"; "work"].
Proof. vm_compute. repeat split. Qed.

(** In general the stored list is the old one, then the new tags, each
    unchanged, without exact repetitions. *)
Lemma addTags_union_exact p d w f ts :
  is_Some (files w !! Path.resolve (cwd w) f) ->
  exists l s',
    addTags f ts (mk p (Records d), w) = (Return l, s') /\
    NoDup l /\
    forall t, t ∈ l <->
      t ∈ ts \/ exists r, JS.get d (Path.resolve (cwd w) f) = Some r /\ t ∈ tags r.
Proof.
  intros Hf. apply exists_at_file in Hf.
  destruct (addTags_loaded_result p d w f ts Hf) as (d' & w' & r' & E & _ & T & _).
  eexists _, _. split; [exact E|]. rewrite T. split.
  - apply NoDup_add_all, NoDup_new_Set.
  - intros t. rewrite elem_of_add_all, elem_of_new_Set.
    destruct (JS.get d _) as [r|]; split.
    + intros [?|?]; [right; eauto | by left].
    + intros [?|(r0 & [= <-] & ?)]; [by right | by left].
    + intros [[]%elem_of_nil|?]. by left.
    + intros [?|(r0 & [=] & _)]. by right.
Qed.

(** C3. A backing file that does not parse is not reported: [init] returns
    normally with an empty store and overwrites the file with [{}]. *)
Theorem init_overwrites_corrupt_store :
  let s0 := (Demo.fresh, Demo.corrupt) in
  backing_file s0 = Some "{oops" /\
  JSON.parse "{oops" = JSON.SyntaxError /\
  fst (init s0) = Return tt /\
  db (fst (snd (init s0))) = Records [] /\
  backing_file (snd (init s0)) = Some "{}" /\
  fst (getTags "a.txt" s0) = Return [].
Proof. vm_compute. repeat split. Qed.

(** The same for every text [JSON.parse] rejects. *)
Lemma init_reinitializes_on_syntax_error p v w text :
  files w !! Path.resolve (cwd w) p = Some text ->
  JSON.parse text = JSON.SyntaxError ->
  exists w',
    init (mk p v, w) = (Return tt, (mk p (Records []), w')) /\
    files w' = <[Path.resolve (cwd w) p := "{}"]> (files w).
Proof.
  intros H E. eexists. split; [by apply (init_syntax_error _ _ _ text)|done].
Qed.

(** * Further properties of the library *)

(** ** More on objects *)

Section ObjectMore.
Context {V : Type}.
Implicit Types (o : JS.object V) (k : string) (v : V).

Lemma get_delete_eq o k : JS.get (JS.delete o k) k = None.
Proof.
  induction o as [|[k' v'] o IH]; simpl; [done|].
  destruct (String.eqb k' k) eqn:E; simpl; [done|]. by rewrite E.
Qed.

Lemma get_delete_ne o k k' : k <> k' -> JS.get (JS.delete o k) k' = JS.get o k'.
Proof.
  intros Hne. induction o as [|[k0 v0] o IH]; simpl; [done|].
  destruct (String.eqb k0 k) eqn:E; simpl.
  - apply String.eqb_eq in E as ->. by apply String.eqb_neq in Hne as ->.
  - by rewrite IH.
Qed.

Lemma delete_absent o k : JS.get o k = None -> JS.delete o k = o.
Proof.
  induction o as [|[k' v'] o IH]; simpl; [done|].
  destruct (String.eqb k' k) eqn:E; [done|]. intros H. by rewrite IH.
Qed.

Lemma keys_delete_sublist o k : sublist (JS.keys (JS.delete o k)) (JS.keys o).
Proof.
  unfold JS.keys. induction o as [|[k' v'] o IH]; simpl; [constructor|].
  destruct (String.eqb k' k); simpl; [by apply sublist_cons | by apply sublist_skip].
Qed.

Lemma set_absent o k v : JS.get o k = None -> JS.set o k v = (o ++ [(k, v)])%list.
Proof.
  induction o as [|[k' v'] o IH]; simpl; [done|].
  destruct (String.eqb k' k) eqn:E; [done|]. intros H. by rewrite IH.
Qed.

Lemma NoDup_keys_set o k v : NoDup (JS.keys o) -> NoDup (JS.keys (JS.set o k v)).
Proof.
  intros Hnd. destruct (JS.get o k) as [x|] eqn:G.
  - rewrite keys_set_present; eauto.
  - rewrite keys_set_absent by done. apply NoDup_app. repeat split; [done| |apply NoDup_singleton].
    intros z Hz ->%list_elem_of_singleton. by apply get_None_not_key in G.
Qed.

Lemma NoDup_keys_delete o k : NoDup (JS.keys o) -> NoDup (JS.keys (JS.delete o k)).
Proof. intros H. eapply sublist_NoDup; [done | apply keys_delete_sublist]. Qed.

(** With distinct keys, the entry of a key is the one [get] returns. *)
Lemma elem_of_get o k v : NoDup (JS.keys o) -> (k, v) ∈ o -> JS.get o k = Some v.
Proof.
  unfold JS.keys. induction o as [|[k' v'] o IH]; simpl; intros Hnd Hin.
  - by apply elem_of_nil in Hin.
  - apply NoDup_cons in Hnd as [Hk Hnd]. apply elem_of_cons in Hin as [[= -> ->]|Hin].
    + by rewrite String.eqb_refl.
    + destruct (String.eqb k' k) eqn:E; [|by apply IH].
      apply String.eqb_eq in E as ->. exfalso. apply Hk.
      apply list_elem_of_fmap. by exists (k, v).
Qed.

End ObjectMore.

(** ** [clearTags] *)

Lemma clearTags_loaded p d w f :
  clearTags f (mk p (Records d), w)
  = (Return tt,
     (mk p (Records (JS.delete d (Path.resolve (cwd w) f))),
      written (Path.resolve (cwd w) p)
              (JSON.stringify (JS.delete d (Path.resolve (cwd w) f))) w)).
Proof. reflexivity. Qed.

Lemma clearTags_from_loaded f s s1 d :
  loads s s1 d -> clearTags f s = clearTags f s1.
Proof.
  intros H. unfold clearTags.
  by rewrite (after_load _ _ _ _ H), (after_load _ _ _ _ (loads_again _ _ _ H)).
Qed.


(** X1. [clearTags(f)] returns normally whether or not the path is tracked;
    afterwards the path has no record and [getTags(f)] is empty, every
    other record is as before, and the backing file holds the new store. *)
Theorem clearTags_removes_record f s s1 d :
  loads s s1 d ->
  exists d' w',
    clearTags f s = (Return tt, (mk (dbPath (fst s1)) (Records d'), w')) /\
    JS.get d' (Path.resolve (cwd (snd s1)) f) = None /\
    (forall k, k <> Path.resolve (cwd (snd s1)) f -> JS.get d' k = JS.get d k) /\
    sublist (JS.keys d') (JS.keys d) /\
    files w' = <[backing_path s1 := JSON.stringify d']> (files (snd s1)) /\
    getTags f (mk (dbPath (fst s1)) (Records d'), w')
    = (Return [], (mk (dbPath (fst s1)) (Records d'), w')).
Proof.
  intros H. rewrite (clearTags_from_loaded _ _ _ _ H), (loads_shape _ _ _ H).
  rewrite clearTags_loaded. eexists _, _. split; [reflexivity|].
  split; [apply get_delete_eq|]. split; [intros k Hk; by apply get_delete_ne|].
  split; [apply keys_delete_sublist|]. split; [reflexivity|].
  rewrite (getTags_run f _ _ _ (loads_loaded _ _ _)). simpl.
  by rewrite get_delete_eq.
Qed.

Lemma clearTags_removes_record_witness :
  exists d' w',
    clearTags "file2.txt" (Demo.fresh, Demo.stored)
    = (Return tt, (mk ".filetag.json" (Records d'), w')) /\
    JS.get d' "/home/u/file2.txt" = None /\
    (forall k, k <> "/home/u/file2.txt" -> JS.get d' k = JS.get Demo.library k) /\
    sublist (JS.keys d') (JS.keys Demo.library) /\
    files w' = <[Demo.backing := JSON.stringify d']> (files Demo.stored) /\
    getTags "file2.txt" (mk ".filetag.json" (Records d'), w')
    = (Return [], (mk ".filetag.json" (Records d'), w')).
Proof.
  apply (clearTags_removes_record "file2.txt" (Demo.fresh, Demo.stored)
           (snd (ensure_init (Demo.fresh, Demo.stored))) Demo.library).
  split; vm_compute; reflexivity.
Defined.

(** X2. On a path without a record, [clearTags] leaves the records as they
    are and still rewrites the backing file, where [removeTags] returns
    without a write. *)
Theorem clearTags_untracked_rewrites p d w f :
  JS.get d (Path.resolve (cwd w) f) = None ->
  exists w',
    clearTags f (mk p (Records d), w) = (Return tt, (mk p (Records d), w')) /\
    issued w w' [WriteFile (Path.resolve (cwd w) p) (JSON.stringify d)] /\
    ticks w' = ticks w.
Proof.
  intros G. rewrite clearTags_loaded, (delete_absent _ _ G).
  eexists. split; [reflexivity|]. by split.
Qed.

Lemma clearTags_untracked_rewrites_witness :
  exists w',
    clearTags "notes.txt" (Demo.loaded Demo.library, Demo.stored)
    = (Return tt, (Demo.loaded Demo.library, w')) /\
    issued Demo.stored w' [WriteFile Demo.backing (JSON.stringify Demo.library)] /\
    ticks w' = ticks Demo.stored.
Proof.
  apply (clearTags_untracked_rewrites ".filetag.json" Demo.library Demo.stored).
  vm_compute. reflexivity.
Defined.

(** ** [addTags], continued *)

Lemma getTags_after_addTags f ts s l s1 :
  addTags f ts s = (Return l, s1) -> getTags f s1 = (Return l, s1).
Proof.
  intros E. destruct (addTags_returns_inv _ _ _ _ _ E) as (p & d & w & Hl & Hf).
  rewrite (addTags_from_loaded _ _ _ _ _ Hl) in E.
  destruct (addTags_loaded_result p d w f ts Hf)
    as (d1 & w1 & r1 & E1 & G1 & _ & C1 & _).
  rewrite E1 in E. injection E as <- <-.
  rewrite (getTags_run f _ _ _ (loads_loaded _ _ _)). simpl.
  by rewrite C1, G1.
Qed.

(** X3. The list [addTags] returns is the list stored: a [getTags] of the
    same path right after returns it, and changes nothing. *)
Theorem addTags_then_getTags f ts s l s1 :
  addTags f ts s = (Return l, s1) -> getTags f s1 = (Return l, s1).
Proof. apply getTags_after_addTags. Qed.

Lemma addTags_then_getTags_witness :
  getTags "a.txt" (snd (addTags "a.txt" ["x"; "y"] (Demo.fresh, Demo.one_file)))
  = (Return ["x"; "y"], snd (addTags "a.txt" ["x"; "y"] (Demo.fresh, Demo.one_file))).
Proof.
  apply (addTags_then_getTags "a.txt" ["x"; "y"] (Demo.fresh, Demo.one_file)).
  vm_compute. reflexivity.
Defined.

(** The union keeps what the set held, in order, and appends the new
    members in the order of their first occurrence. *)
Lemma has_app s1 s2 x : JS.has (s1 ++ s2) x = JS.has s1 x || JS.has s2 x.
Proof.
  unfold JS.has. apply eq_true_iff_eq.
  rewrite orb_true_iff, !bool_decide_eq_true, elem_of_app. tauto.
Qed.

Lemma filter_length_le {A} (f : A -> bool) (l : list A) :
  length (List.filter f l) <= length l.
Proof. induction l as [|x l IH]; simpl; [done|]. destruct (f x); simpl; lia. Qed.

Lemma add_all_split n : forall xs s,
  length xs <= n ->
  JS.add_all s xs
  = (s ++ JS.new_Set (List.filter (fun x => negb (JS.has s x)) xs))%list.
Proof.
  induction n as [|n IH]; intros [|x xs] s Hn; simpl in Hn; try lia.
  - unfold JS.new_Set, JS.add_all. simpl. by rewrite app_nil_r.
  - unfold JS.new_Set, JS.add_all. simpl. by rewrite app_nil_r.
  - change (JS.add_all s (x :: xs)) with (JS.add_all (JS.add s x) xs).
    simpl. unfold JS.add. destruct (JS.has s x) eqn:E; simpl.
    + apply IH. lia.
    + rewrite IH by lia.
      change (JS.new_Set (x :: ?ys)) with (JS.add_all [x] ys).
      rewrite (IH (List.filter _ xs) [x]).
      2:{ pose proof (filter_length_le (fun x0 => negb (JS.has s x0)) xs). lia. }
      rewrite <- app_assoc. f_equal. f_equal. f_equal.
      clear. induction xs as [|y xs IH]; simpl; [done|].
      rewrite has_app, negb_orb.
      destruct (JS.has s y); simpl; [done|].
      destruct (JS.has [x] y); simpl; by rewrite IH.
Qed.

(** X4. [addTags] on an existing file touches one record: every other
    record is as before, the keys keep their order with a new path going
    last, and no file other than the backing file changes. *)
Theorem addTags_frame p d w f ts :
  is_Some (files w !! Path.resolve (cwd w) f) ->
  exists l d' w',
    addTags f ts (mk p (Records d), w) = (Return l, (mk p (Records d'), w')) /\
    (forall k, k <> Path.resolve (cwd w) f -> JS.get d' k = JS.get d k) /\
    JS.keys d' = match JS.get d (Path.resolve (cwd w) f) with
                 | Some _ => JS.keys d
                 | None => (JS.keys d ++ [Path.resolve (cwd w) f])%list
                 end /\
    (forall q, q <> Path.resolve (cwd w) p -> files w' !! q = files w !! q).
Proof.
  intros Hf. apply exists_at_file in Hf. destruct (JS.get d (Path.resolve (cwd w) f)) as [r|] eqn:G.
  - eexists _, _, _. split; [by apply addTags_tracked|]. repeat split.
    + intros k Hk. by apply get_set_ne.
    + apply keys_set_present. eauto.
    + intros q Hq. simpl. by apply lookup_insert_ne.
  - eexists _, _, _. split; [by apply addTags_untracked|]. repeat split.
    + intros k Hk. by apply get_set_ne.
    + by apply keys_set_absent.
    + intros q Hq. simpl. by apply lookup_insert_ne.
Qed.

Lemma addTags_frame_witness :
  exists l d' w',
    addTags "file1.txt" ["new"] (Demo.loaded Demo.library, Demo.stored)
    = (Return l, (Demo.loaded d', w')) /\
    (forall k, k <> "/home/u/file1.txt" -> JS.get d' k = JS.get Demo.library k) /\
    JS.keys d' = JS.keys Demo.library /\
    (forall q, q <> Demo.backing -> files w' !! q = files Demo.stored !! q).
Proof.
  apply (addTags_frame ".filetag.json" Demo.library Demo.stored "file1.txt" ["new"]).
  vm_compute. eexists. reflexivity.
Defined.

(** X5. [created] is set once: for a path that has a record, [addTags]
    keeps [created] and sets [modified] to the one clock reading it takes;
    for a new path it reads the clock three times, [created] is the first
    reading and [modified] the third. *)
Theorem addTags_timestamps p d w f ts :
  is_Some (files w !! Path.resolve (cwd w) f) ->
  exists l d' w' r',
    addTags f ts (mk p (Records d), w) = (Return l, (mk p (Records d'), w')) /\
    JS.get d' (Path.resolve (cwd w) f) = Some r' /\
    match JS.get d (Path.resolve (cwd w) f) with
    | Some r =>
        created r' = created r /\ modified r' = clock w (ticks w) /\
        ticks w' = S (ticks w)
    | None =>
        created r' = clock w (ticks w) /\
        modified r' = clock w (S (S (ticks w))) /\
        ticks w' = S (S (S (ticks w)))
    end.
Proof.
  intros Hf. apply exists_at_file in Hf. destruct (JS.get d (Path.resolve (cwd w) f)) as [r|] eqn:G.
  - eexists _, _, _, _. split; [by apply addTags_tracked|].
    split; [apply get_set_eq|]. done.
  - eexists _, _, _, _. split; [by apply addTags_untracked|].
    split; [apply get_set_eq|]. done.
Qed.

Lemma addTags_timestamps_witness :
  exists l d' w' r',
    addTags "a.txt" ["x"] (Demo.loaded [], Demo.one_file)
    = (Return l, (Demo.loaded d', w')) /\
    JS.get d' "/home/u/a.txt" = Some r' /\
    created r' = Demo.clock 0 /\ modified r' = Demo.clock 2 /\ ticks w' = 3.
Proof.
  apply (addTags_timestamps ".filetag.json" [] Demo.one_file "a.txt" ["x"]).
  vm_compute. eexists. reflexivity.
Defined.

(** X6. The list [addTags] returns is the old list without repetitions, in
    its order, followed by the given tags that were not in it, each once, in
    the order of their first occurrence. *)
Theorem addTags_order p d w f ts :
  is_Some (files w !! Path.resolve (cwd w) f) ->
  let old := match JS.get d (Path.resolve (cwd w) f) with
             | Some r => tags r
             | None => []
             end in
  exists s',
    addTags f ts (mk p (Records d), w)
    = (Return (JS.new_Set old
               ++ JS.new_Set (List.filter (fun t => negb (JS.has (JS.new_Set old) t)) ts))%list,
       s').
Proof.
  intros Hf old. apply exists_at_file in Hf.
  destruct (addTags_loaded_result p d w f ts Hf) as (d' & w' & r' & E & _ & T & _).
  eexists. rewrite E, T. f_equal. f_equal. by apply (add_all_split (length ts)).
Qed.

Lemma addTags_order_witness :
  exists s',
    addTags "file1.txt" ["draft"; "work"; "x"; "draft"]
            (Demo.loaded Demo.library, Demo.stored)
    = (Return ["work"; "important"; "draft"; "x"], s').
Proof.
  apply (addTags_order ".filetag.json" Demo.library Demo.stored "file1.txt"
           ["draft"; "work"; "x"; "draft"]).
  vm_compute. eexists. reflexivity.
Defined.

(** ** [removeTags], continued *)

Lemma filter_not_in (ts old : list string) :
  let kept := List.filter (fun tag => negb (JS.has (JS.new_Set ts) tag)) old in
  sublist kept old /\
  (forall t, t ∈ kept <-> t ∈ old /\ t ∉ ts) /\
  ((forall t, t ∈ ts -> t ∉ old) -> kept = old).
Proof.
  induction old as [|x old (IH1 & IH2 & IH3)]; simpl.
  - split; [constructor|]. split; [|done]. intros t. rewrite elem_of_nil. tauto.
  - destruct (JS.has (JS.new_Set ts) x) eqn:E; simpl.
    + apply has_true in E. rewrite elem_of_new_Set in E.
      split; [by apply sublist_cons|]. split.
      * intros t. rewrite IH2, elem_of_cons. split; [tauto|].
        intros [[->|?] ?]; [done | tauto].
      * intros H. exfalso. apply (H x E). left.
    + apply has_false in E. rewrite elem_of_new_Set in E.
      split; [by apply sublist_skip|]. split.
      * intros t. rewrite !elem_of_cons, IH2. split; [|tauto].
        intros [->|?]; tauto.
      * intros H. f_equal. apply IH3. intros t Ht Hin. apply (H t Ht). by right.
Qed.

(** X7. [removeTags] on a tracked path returns the record's tags without
    those given, the others in their order; when none of the given tags is
    on the record the list is unchanged (the call still sets [modified] and
    writes the backing file). *)
Theorem removeTags_result f ts s s1 d r :
  loads s s1 d ->
  JS.get d (Path.resolve (cwd (snd s1)) f) = Some r ->
  exists l s2,
    removeTags f ts s = (Return l, s2) /\
    sublist l (tags r) /\
    (forall t, t ∈ l <-> t ∈ tags r /\ t ∉ ts) /\
    ((forall t, t ∈ ts -> t ∉ tags r) -> l = tags r) /\
    ticks (snd s2) = S (ticks (snd s1)) /\
    backing_file s2
    = Some (JSON.stringify
              (JS.set d (Path.resolve (cwd (snd s1)) f)
                      (mkRecord l (created r) (clock (snd s1) (ticks (snd s1)))))).
Proof.
  intros H G.
  rewrite (removeTags_from_loaded _ _ _ _ _ H), (loads_shape _ _ _ H).
  rewrite (removeTags_tracked _ _ _ _ _ _ G).
  destruct (filter_not_in ts (tags r)) as (H1 & H2 & H3).
  eexists _, _. split; [reflexivity|]. repeat split; try done.
  - by apply H2.
  - by apply H2.
  - intros [? ?]. by apply H2.
  - unfold backing_file, backing_path. simpl. by rewrite lookup_insert_eq.
Qed.

Lemma removeTags_result_witness :
  exists l s2,
    removeTags "file1.txt" ["important"; "absent"] (Demo.fresh, Demo.stored)
    = (Return l, s2) /\
    sublist l ["work"; "important"] /\
    (forall t, t ∈ l <-> t ∈ ["work"; "important"] /\ t ∉ ["important"; "absent"]) /\
    ((forall t, t ∈ ["important"; "absent"] -> t ∉ ["work"; "important"]) ->
     l = ["work"; "important"]) /\
    ticks (snd s2) = 1 /\
    backing_file s2
    = Some (JSON.stringify
              (JS.set Demo.library "/home/u/file1.txt"
                      (mkRecord l (Demo.clock 0) (Demo.clock 0)))).
Proof.
  apply (removeTags_result "file1.txt" ["important"; "absent"]
           (Demo.fresh, Demo.stored)
           (snd (ensure_init (Demo.fresh, Demo.stored))) Demo.library
           (mkRecord ["work"; "important"] (Demo.clock 0) (Demo.clock 2))).
  - split; vm_compute; reflexivity.
  - vm_compute. reflexivity.
Defined.

(** A call of [removeTags] that returns has loaded records. *)
Lemma removeTags_returns_inv f ts s l s2 :
  removeTags f ts s = (Return l, s2) ->
  exists p d w, loads s (mk p (Records d), w) d.
Proof.
  unfold removeTags, bind at 1.
  destruct (ensure_init s) as [[[]| |] [[p v] w]] eqn:E; try discriminate.
  unfold bind. simpl. destruct v as [d|j]; simpl; [|discriminate].
  intros _. exists p, d, w. by split.
Qed.

(** X8. [removeTags] is idempotent on the tag list: when a call returns a
    list, the same call again returns that list. *)
Theorem removeTags_idempotent f ts s l s1 :
  removeTags f ts s = (Return l, s1) ->
  exists s2, removeTags f ts s1 = (Return l, s2).
Proof.
  intros E. destruct (removeTags_returns_inv _ _ _ _ _ E) as (p & d & w & Hl).
  rewrite (removeTags_from_loaded _ _ _ _ _ Hl) in E.
  destruct (JS.get d (Path.resolve (cwd w) f)) as [r|] eqn:G.
  - rewrite (removeTags_tracked _ _ _ _ _ _ G) in E. injection E as <- <-.
    eexists. erewrite removeTags_tracked; [|simpl; apply get_set_eq].
    simpl. f_equal. f_equal.
    induction (tags r) as [|x xs IH]; simpl; [done|].
    destruct (JS.has (JS.new_Set ts) x) eqn:Hx; simpl; [done|].
    by rewrite Hx, IH.
  - rewrite (removeTags_untracked _ _ _ _ _ G) in E. injection E as <- <-.
    eexists. by apply removeTags_untracked.
Qed.

Lemma removeTags_idempotent_witness :
  exists s2,
    removeTags "file1.txt" ["work"]
      (snd (removeTags "file1.txt" ["work"] (Demo.fresh, Demo.stored)))
    = (Return ["important"], s2).
Proof.
  apply (removeTags_idempotent "file1.txt" ["work"] (Demo.fresh, Demo.stored)).
  vm_compute. reflexivity.
Defined.

(** ** Queries, continued *)

Lemma selected_sublist_impl q1 m1 q2 m2 (d : DB) :
  (forall r, matches q1 m1 r = true -> matches q2 m2 r = true) ->
  sublist (selected q1 m1 d) (selected q2 m2 d).
Proof.
  intros H. unfold selected, JS.keys. induction d as [|e d IH]; simpl; [constructor|].
  destruct (matches q1 m1 (snd e)) eqn:E1.
  - rewrite (H _ E1). simpl. by apply sublist_skip.
  - destruct (matches q2 m2 (snd e)); simpl; [by apply sublist_cons | done].
Qed.

(** X9. For a query that is not empty, the paths [findByTags] returns in
    AND mode are among those it returns in OR mode, in the same order; for
    a query of one tag the two modes return the same list. *)
Theorem findByTags_all_within_any s s1 d query :
  loads s s1 d ->
  query <> [] ->
  exists any all,
    findByTags query false s = (Return any, s1) /\
    findByTags query true s = (Return all, s1) /\
    sublist all any /\
    (length query = 1 -> all = any).
Proof.
  intros H Hq. exists (selected query false d), (selected query true d).
  rewrite !(findByTags_run _ _ _ _ _ H). repeat split.
  - apply selected_sublist_impl. intros r Hr.
    destruct query as [|t q]; [done|].
    apply matches_any. exists t. split; [left|].
    apply (proj1 (matches_all _ _) Hr). left.
  - intros Hlen. destruct query as [|t [|t' q]]; try discriminate.
    reflexivity.
Qed.

Lemma findByTags_all_within_any_witness :
  exists any all,
    findByTags ["work"; "important"] false (Demo.fresh, Demo.stored)
    = (Return any, snd (ensure_init (Demo.fresh, Demo.stored))) /\
    findByTags ["work"; "important"] true (Demo.fresh, Demo.stored)
    = (Return all, snd (ensure_init (Demo.fresh, Demo.stored))) /\
    sublist all any /\
    (length ["work"; "important"] = 1 -> all = any).
Proof.
  apply (findByTags_all_within_any (Demo.fresh, Demo.stored) _ Demo.library).
  - split; vm_compute; reflexivity.
  - discriminate.
Defined.

(** X10. A longer query narrows an AND search and widens an OR search:
    when every tag of [q1] is in [q2], the AND result for [q2] is within
    that for [q1], and the OR result for [q1] within that for [q2]. *)
Theorem findByTags_monotone s s1 d q1 q2 :
  loads s s1 d ->
  (forall t, t ∈ q1 -> t ∈ q2) ->
  exists all1 all2 any1 any2,
    findByTags q1 true s = (Return all1, s1) /\
    findByTags q2 true s = (Return all2, s1) /\
    findByTags q1 false s = (Return any1, s1) /\
    findByTags q2 false s = (Return any2, s1) /\
    sublist all2 all1 /\ sublist any1 any2.
Proof.
  intros H Hsub.
  exists (selected q1 true d), (selected q2 true d),
         (selected q1 false d), (selected q2 false d).
  rewrite !(findByTags_run _ _ _ _ _ H). repeat split.
  - apply selected_sublist_impl. intros r Hr. apply matches_all.
    intros t Ht. by apply (proj1 (matches_all _ _) Hr), Hsub.
  - apply selected_sublist_impl. intros r Hr. apply matches_any.
    apply matches_any in Hr as (t & Ht & Hr). exists t. by split; [apply Hsub|].
Qed.

Lemma findByTags_monotone_witness :
  exists all1 all2 any1 any2,
    findByTags ["work"] true (Demo.fresh, Demo.stored)
    = (Return all1, snd (ensure_init (Demo.fresh, Demo.stored))) /\
    findByTags ["important"; "work"] true (Demo.fresh, Demo.stored)
    = (Return all2, snd (ensure_init (Demo.fresh, Demo.stored))) /\
    findByTags ["work"] false (Demo.fresh, Demo.stored)
    = (Return any1, snd (ensure_init (Demo.fresh, Demo.stored))) /\
    findByTags ["important"; "work"] false (Demo.fresh, Demo.stored)
    = (Return any2, snd (ensure_init (Demo.fresh, Demo.stored))) /\
    sublist all2 all1 /\ sublist any1 any2.
Proof.
  apply (findByTags_monotone (Demo.fresh, Demo.stored) _ Demo.library).
  - split; vm_compute; reflexivity.
  - intros t Ht. apply list_elem_of_In in Ht. apply list_elem_of_In.
    simpl in *. tauto.
Defined.

(** X11. [listAllTags] and [findByTags] agree: a tag is listed exactly when
    searching for it alone finds some path. *)
Theorem listAllTags_iff_found s s1 d t :
  loads s s1 d ->
  exists all found,
    listAllTags s = (Return all, s1) /\
    findByTags [t] false s = (Return found, s1) /\
    (t ∈ all <-> found <> []).
Proof.
  intros H. exists (JS.sort (all_tags d)), (selected [t] false d).
  rewrite (listAllTags_run _ _ _ H), (findByTags_run _ _ _ _ _ H).
  split; [done|]. split; [done|].
  rewrite sort_Permutation, elem_of_all_tags. unfold tagged. split.
  - intros (p & r & Hin & Ht) Hnil.
    assert (p ∈ selected [t] false d) as Hp.
    { apply elem_of_selected. exists r. split; [done|]. apply matches_any.
      exists t. split; [left | done]. }
    rewrite Hnil in Hp. by apply elem_of_nil in Hp.
  - intros Hne. destruct (selected [t] false d) as [|p l] eqn:E; [done|].
    assert (p ∈ selected [t] false d) as Hp by (rewrite E; left).
    apply elem_of_selected in Hp as (r & Hin & Hm).
    apply matches_any in Hm as (t' & Ht' & Hr).
    apply list_elem_of_singleton in Ht' as ->. eauto.
Qed.

Lemma listAllTags_iff_found_witness :
  exists all found,
    listAllTags (Demo.fresh, Demo.stored)
    = (Return all, snd (ensure_init (Demo.fresh, Demo.stored))) /\
    findByTags ["draft"] false (Demo.fresh, Demo.stored)
    = (Return found, snd (ensure_init (Demo.fresh, Demo.stored))) /\
    ("draft" ∈ all <-> found <> []).
Proof.
  apply (listAllTags_iff_found (Demo.fresh, Demo.stored) _ Demo.library).
  split; vm_compute; reflexivity.
Defined.

(** ** Invariants of every method *)

Section Hoare.
Context {A B : Type}.
Implicit Types (P Q R : FileTag.t * World -> Prop).

Lemma hoare_ret P (a : A) : hoare P P (ret a).
Proof. by intros s H. Qed.

Lemma hoare_throw P e : hoare P P (@throw A e).
Proof. by intros s H. Qed.

Lemma hoare_unmodelled P : hoare P P (@unmodelled A).
Proof. by intros s H. Qed.

Lemma hoare_bind P R Q (m : M A) (k : A -> M B) :
  hoare P R m -> (forall s, R s -> Q s) -> (forall a, hoare R Q (k a)) ->
  hoare P Q (bind m k).
Proof.
  intros Hm Hfail Hk s HP. specialize (Hm s HP). unfold bind.
  destruct (m s) as [[a|e|] s']; simpl in *; auto. by apply Hk.
Qed.

Lemma hoare_pre P P' Q (m : M A) :
  (forall s, P' s -> P s) -> hoare P Q m -> hoare P' Q m.
Proof. intros H Hm s HP. apply Hm, H, HP. Qed.

(** Binds whose value is read off the state. *)
Lemma hoare_bind_dbPath P Q (k : string -> M B) :
  (forall p, hoare (fun s => P s /\ dbPath (fst s) = p) Q (k p)) ->
  hoare P Q (bind get_dbPath k).
Proof. intros H s HP. by apply (H (dbPath (fst s))). Qed.

Lemma hoare_bind_db P Q (k : db_value -> M B) :
  (forall v, hoare (fun s => P s /\ db (fst s) = v) Q (k v)) ->
  hoare P Q (bind get_db k).
Proof. intros H s HP. by apply (H (db (fst s))). Qed.

Lemma hoare_bind_records P Q (k : DB -> M B) :
  (forall s, P s -> Q s) ->
  (forall d, hoare (fun s => P s /\ db (fst s) = Records d) Q (k d)) ->
  hoare P Q (bind records k).
Proof.
  intros Hfail H s HP. unfold bind, records, bind, get_db. simpl.
  destruct (db (fst s)) as [d|j] eqn:E; simpl; [|by apply Hfail].
  by apply (H d).
Qed.

Lemma hoare_bind_resolve P Q f (k : string -> M B) :
  (forall a, Path.is_absolute a = true ->
             hoare (fun s => P s /\ a = Path.resolve (cwd (snd s)) f) Q (k a)) ->
  hoare P Q (bind (path_resolve f) k).
Proof. intros H s HP. by apply (H (Path.resolve (cwd (snd s)) f)). Qed.

End Hoare.

(** *** Confinement: no file but the backing file is read or written *)

Section Confined.
Variable s0 : FileTag.t * World.

Lemma confined_refl : confined s0 s0.
Proof.
  repeat split; try done. exists []. by rewrite app_nil_r.
Qed.

Lemma confined_log s c :
  confined s0 s -> allowed (backing_path s0) c ->
  confined s0 (fst s, log c (snd s)).
Proof.
  intros (H1 & H2 & H3 & H4 & H5 & cs & H6 & H7) Hc. repeat split; try done.
  exists (cs ++ [c])%list. simpl. rewrite H6, <- app_assoc. split; [done|].
  apply Forall_app. split; [done|]. by constructor.
Qed.

Lemma confined_target s :
  confined s0 s -> Path.resolve (cwd (snd s)) (dbPath (fst s0)) = backing_path s0.
Proof. intros (_ & H & _). unfold backing_path. by rewrite H. Qed.

Lemma confined_readFile : hoare (confined s0) (confined s0) (readFile (dbPath (fst s0))).
Proof.
  intros s H. unfold readFile. simpl. apply confined_log; [done|].
  simpl. by apply confined_target.
Qed.

Lemma confined_writeFile data :
  hoare (confined s0) (confined s0) (writeFile (dbPath (fst s0)) data).
Proof.
  intros s H. unfold writeFile. simpl. rewrite (confined_target _ H).
  destruct H as (H1 & H2 & H3 & H4 & H5 & cs & H6 & H7). repeat split; try done.
  - intros q Hq. simpl. rewrite lookup_insert_ne by done. by apply H5.
  - exists (cs ++ [WriteFile (backing_path s0) data])%list. simpl.
    rewrite H6, <- app_assoc. split; [done|].
    apply Forall_app. split; [done|]. by constructor.
Qed.

Lemma confined_access a : hoare (confined s0) (confined s0) (access a).
Proof. intros s H. unfold access. simpl. by apply confined_log. Qed.

Lemma confined_now : hoare (confined s0) (confined s0) now.
Proof.
  intros s (H1 & H2 & H3 & H4 & H5 & H6). repeat split; try done. simpl. lia.
Qed.

Lemma confined_set_db v : hoare (confined s0) (confined s0) (set_db v).
Proof. by intros s H. Qed.

Lemma confined_get_db : hoare (confined s0) (confined s0) get_db.
Proof. by intros s H. Qed.

Lemma confined_path_resolve f : hoare (confined s0) (confined s0) (path_resolve f).
Proof. by intros s H. Qed.

Lemma confined_bind_dbPath {B} (k : string -> M B) :
  hoare (confined s0) (confined s0) (k (dbPath (fst s0))) ->
  hoare (confined s0) (confined s0) (bind get_dbPath k).
Proof.
  intros H s HP. unfold bind, get_dbPath. simpl.
  destruct HP as [E HP]. rewrite E. apply H. by split.
Qed.

(** Every step of a method keeps the confinement; so does the method. *)
Ltac confine :=
  repeat first
    [ apply confined_bind_dbPath
    | apply confined_readFile
    | apply confined_writeFile
    | apply confined_access
    | apply confined_now
    | apply confined_set_db
    | apply confined_get_db
    | apply confined_path_resolve
    | apply hoare_ret
    | apply hoare_throw
    | apply hoare_unmodelled
    | eapply hoare_bind; [ | intros ? H; exact H | intros ? ]
    | match goal with
      | |- hoare _ _ (match ?x with _ => _ end) => destruct x
      end
    | progress cbv zeta ].

Lemma confined_records : hoare (confined s0) (confined s0) records.
Proof. unfold records. confine. Qed.

Lemma confined_save : hoare (confined s0) (confined s0) save.
Proof. unfold save. eapply hoare_bind; [apply confined_records|auto|intros d]. confine. Qed.

Lemma confined_init : hoare (confined s0) (confined s0) init.
Proof.
  unfold init. apply confined_bind_dbPath.
  eapply hoare_bind; [apply confined_readFile|auto|intros data].
  destruct data as [text|].
  - destruct (JSON.parse text).
    + apply confined_set_db.
    + eapply hoare_bind; [apply confined_set_db|auto|intros _; apply confined_save].
    + apply hoare_unmodelled.
  - eapply hoare_bind; [apply confined_set_db|auto|intros _; apply confined_save].
Qed.

Lemma confined_ensure_init : hoare (confined s0) (confined s0) ensure_init.
Proof.
  unfold ensure_init. eapply hoare_bind; [apply confined_get_db|auto|intros v].
  destruct (unloaded v); [apply confined_init | apply hoare_ret].
Qed.

Lemma confined_update k f : hoare (confined s0) (confined s0) (update k f).
Proof.
  unfold update. eapply hoare_bind; [apply confined_records|auto|intros d].
  destruct (JS.get d k); [apply confined_set_db | apply hoare_unmodelled].
Qed.

Lemma confined_tags_at k : hoare (confined s0) (confined s0) (tags_at k).
Proof.
  unfold tags_at. eapply hoare_bind; [apply confined_records|auto|intros d].
  destruct (JS.get d k); [apply hoare_ret | apply hoare_unmodelled].
Qed.

Ltac confine_method :=
  repeat first
    [ apply confined_ensure_init
    | apply confined_records
    | apply confined_save
    | apply confined_update
    | apply confined_tags_at
    | apply confined_access
    | apply confined_now
    | apply confined_set_db
    | apply confined_path_resolve
    | apply hoare_ret
    | apply hoare_throw
    | apply hoare_unmodelled
    | eapply hoare_bind; [ | intros ? H; exact H | intros ? ]
    | match goal with
      | |- hoare _ _ (match ?x with _ => _ end) => destruct x
      | |- hoare _ _ (if ?x then _ else _) => destruct x
      end
    | progress cbv zeta ].

Lemma confined_exec c s : confined s0 s -> confined s0 (exec c s).
Proof.
  intros H. destruct c as [| |f ts|f ts|f|q m| | |f]; simpl.
  - by apply confined_init.
  - by apply confined_save.
  - revert s H. change (hoare (confined s0) (confined s0) (addTags f ts)).
    unfold addTags. confine_method.
  - revert s H. change (hoare (confined s0) (confined s0) (removeTags f ts)).
    unfold removeTags. confine_method.
  - revert s H. change (hoare (confined s0) (confined s0) (getTags f)).
    unfold getTags. confine_method.
  - revert s H. change (hoare (confined s0) (confined s0) (findByTags q m)).
    unfold findByTags. confine_method.
  - revert s H. change (hoare (confined s0) (confined s0) listAllTags).
    unfold listAllTags. confine_method.
  - revert s H. change (hoare (confined s0) (confined s0) listAll).
    unfold listAll. confine_method.
  - revert s H. change (hoare (confined s0) (confined s0) (clearTags f)).
    unfold clearTags. confine_method.
Qed.

End Confined.

Lemma confined_exec_all cs s : confined s (exec_all cs s).
Proof.
  unfold exec_all. generalize (confined_refl s). generalize s at 2 4 as s1.
  induction cs as [|c cs IH]; intros s1 H; simpl; [done|].
  apply IH. by apply confined_exec.
Qed.

Lemma run_exec_all cs : forall s s', run cs s = Some s' -> s' = exec_all cs s.
Proof.
  unfold exec_all. induction cs as [|c cs IH]; intros s s'; simpl.
  - by intros [= <-].
  - destruct (within c s); [apply IH | done].
Qed.

(** X12. Whatever methods are called, in whatever order, returning or
    throwing, no file other than the backing file is read, written or
    changed, nothing is renamed, and the instance's [dbPath] stays: the
    tagged files themselves are only tested for existence. *)
Theorem methods_touch_only_backing_file cs s s' :
  run cs s = Some s' -> confined s s'.
Proof. intros ->%run_exec_all. apply confined_exec_all. Qed.

Lemma methods_touch_only_backing_file_witness :
  confined (Demo.fresh, Demo.one_file)
    (exec_all [AddTags "a.txt" ["x"]; AddTags "nope.txt" ["y"]; ClearTags "a.txt"]
              (Demo.fresh, Demo.one_file)).
Proof.
  apply (methods_touch_only_backing_file
           [AddTags "a.txt" ["x"]; AddTags "nope.txt" ["y"]; ClearTags "a.txt"]).
  vm_compute. reflexivity.
Defined.


Example tagged_file_untouched :
  files (snd (exec_all [AddTags "a.txt" ["x"]; ClearTags "a.txt"; Init]
                       (Demo.fresh, Demo.one_file))) !! "/home/u/a.txt"
  = Some "hello".
Proof. vm_compute. reflexivity. Qed.

(** *** The keys of the store *)

Lemma absolute_plain a : Path.is_absolute a = true -> JSON.plain_key a = true.
Proof.
  destruct a as [|c a]; [done|]. simpl. intros ->%Ascii.eqb_eq. reflexivity.
Qed.

Lemma well_keyed_nil : well_keyed [].
Proof. split; [apply NoDup_nil_2 | done]. Qed.

Lemma well_keyed_set (d : DB) k v :
  well_keyed d -> JSON.plain_key k = true -> well_keyed (JS.set d k v).
Proof.
  intros [Hnd Hp] Hk. split; [by apply NoDup_keys_set|].
  destruct (JS.get d k) as [x|] eqn:G.
  - rewrite keys_set_present; eauto.
  - rewrite keys_set_absent by done. rewrite forallb_app, Hp. simpl. by rewrite Hk.
Qed.

Lemma well_keyed_delete (d : DB) k : well_keyed d -> well_keyed (JS.delete d k).
Proof.
  intros [Hnd Hp]. split; [by apply NoDup_keys_delete|].
  apply forallb_forall. intros x Hx. apply (proj1 (forallb_forall _ _) Hp).
  apply list_elem_of_In. apply list_elem_of_In in Hx.
  eapply elem_of_sublist; [done | apply keys_delete_sublist].
Qed.

Lemma as_records_keys ms : forall d,
  JSON.as_records ms = Some d -> JS.keys d = JS.keys ms.
Proof.
  induction ms as [|[k v] ms IH]; simpl; intros d.
  - by intros [= <-].
  - destruct (JSON.as_record v); [|done].
    destruct (JSON.as_records ms) as [d'|]; [|done].
    intros [= <-]. unfold JS.keys in *. simpl. f_equal. by apply IH.
Qed.

Lemma as_store_well_keyed j d : JSON.as_store j = Some d -> well_keyed d.
Proof.
  destruct j as [| | | | |ms]; try done. simpl.
  destruct (forallb JSON.plain_key (JS.keys ms)) eqn:Hp; [|done].
  destruct (bool_decide (NoDup (JS.keys ms))) eqn:Hnd; [|done]. simpl.
  intros H. apply as_records_keys in H. unfold well_keyed. rewrite H.
  split; [by apply bool_decide_eq_true in Hnd | done].
Qed.

Section StateOk.

Lemma ok_set_db v :
  match v with Records d => well_keyed d | Other _ => True end ->
  hoare state_ok state_ok (set_db v).
Proof. intros H s _. exact H. Qed.

Lemma ok_set_db_from P v :
  match v with Records d => well_keyed d | Other _ => True end ->
  hoare P state_ok (set_db v).
Proof. intros H s _. exact H. Qed.

Lemma ok_get_db : hoare state_ok state_ok get_db.
Proof. by intros s H. Qed.
Lemma ok_get_dbPath : hoare state_ok state_ok get_dbPath.
Proof. by intros s H. Qed.
Lemma ok_readFile p : hoare state_ok state_ok (readFile p).
Proof. by intros s H. Qed.
Lemma ok_writeFile p data : hoare state_ok state_ok (writeFile p data).
Proof. by intros s H. Qed.
Lemma ok_access a : hoare state_ok state_ok (access a).
Proof. by intros s H. Qed.
Lemma ok_now : hoare state_ok state_ok now.
Proof. by intros s H. Qed.
Lemma ok_path_resolve f : hoare state_ok state_ok (path_resolve f).
Proof. by intros s H. Qed.

Lemma ok_records : hoare state_ok state_ok records.
Proof.
  unfold records. eapply hoare_bind; [apply ok_get_db|auto|intros [d|j]].
  - apply hoare_ret.
  - apply hoare_unmodelled.
Qed.

Ltac ok_steps :=
  repeat first
    [ apply ok_records
    | apply ok_get_db
    | apply ok_get_dbPath
    | apply ok_readFile
    | apply ok_writeFile
    | apply ok_access
    | apply ok_now
    | apply ok_path_resolve
    | apply hoare_ret
    | apply hoare_throw
    | apply hoare_unmodelled
    | eapply hoare_bind; [ | intros ? H; exact H | intros ? ]
    | match goal with
      | |- hoare _ _ (match ?x with _ => _ end) => destruct x
      | |- hoare _ _ (if ?x then _ else _) => destruct x
      end
    | progress cbv zeta ].

Lemma ok_save : hoare state_ok state_ok save.
Proof. unfold save. ok_steps. Qed.

Lemma of_json_ok j :
  match of_json j with Records d => well_keyed d | Other _ => True end.
Proof.
  unfold of_json. destruct (JSON.as_store j) as [d|] eqn:E; [|done].
  by apply as_store_well_keyed in E.
Qed.

Lemma ok_init : hoare state_ok state_ok init.
Proof.
  unfold init.
  eapply hoare_bind; [apply ok_get_dbPath|auto|intros p].
  eapply hoare_bind; [apply ok_readFile|auto|intros [text|]].
  - destruct (JSON.parse text) as [j| |].
    + apply ok_set_db, of_json_ok.
    + eapply hoare_bind; [apply ok_set_db, well_keyed_nil|auto|intros _; apply ok_save].
    + apply hoare_unmodelled.
  - eapply hoare_bind; [apply ok_set_db, well_keyed_nil|auto|intros _; apply ok_save].
Qed.

Lemma ok_ensure_init : hoare state_ok state_ok ensure_init.
Proof.
  unfold ensure_init. eapply hoare_bind; [apply ok_get_db|auto|intros v].
  destruct (unloaded v); [apply ok_init | apply hoare_ret].
Qed.

Lemma ok_with_records d s :
  state_ok s /\ db (fst s) = Records d -> well_keyed d.
Proof. intros [H E]. unfold state_ok in H. by rewrite E in H. Qed.

Lemma ok_update k f : hoare state_ok state_ok (update k f).
Proof.
  unfold update. apply hoare_bind_records; [auto|]. intros d s H.
  destruct (ok_with_records _ _ H) as [Hnd Hp].
  destruct (JS.get d k) as [r|] eqn:G; simpl; [|apply H].
  split; [by apply NoDup_keys_set|]. rewrite keys_set_present; eauto.
Qed.

Lemma ok_tags_at k : hoare state_ok state_ok (tags_at k).
Proof. unfold tags_at. ok_steps. Qed.

Ltac ok_method :=
  repeat first
    [ apply ok_ensure_init
    | apply ok_update
    | apply ok_tags_at
    | apply ok_save
    | apply ok_records
    | apply ok_access
    | apply ok_now
    | apply ok_path_resolve
    | apply hoare_ret
    | apply hoare_throw
    | apply hoare_unmodelled
    | eapply hoare_bind; [ | intros ? H; exact H | intros ? ]
    | match goal with
      | |- hoare _ _ (match ?x with _ => _ end) => destruct x
      | |- hoare _ _ (if ?x then _ else _) => destruct x
      end
    | progress cbv zeta ].

Lemma ok_addTags f ts : hoare state_ok state_ok (addTags f ts).
Proof.
  unfold addTags.
  eapply hoare_bind; [apply ok_ensure_init|auto|intros _].
  apply hoare_bind_resolve. intros a Ha.
  apply (hoare_pre state_ok); [tauto|].
  eapply hoare_bind; [apply ok_access|auto|intros found].
  destruct (negb found); [apply hoare_throw|].
  apply hoare_bind_records; [auto|]. intros d.
  eapply hoare_bind with (R := state_ok); [|auto|intros _; ok_method].
  intros s H. destruct (ok_with_records _ _ H) as [Hnd Hp].
  destruct (JS.get d a) as [r|] eqn:G; simpl; [apply H|].
  apply well_keyed_set; [by split | by apply absolute_plain].
Qed.

Lemma ok_removeTags f ts : hoare state_ok state_ok (removeTags f ts).
Proof. unfold removeTags. ok_method. Qed.

Lemma ok_clearTags f : hoare state_ok state_ok (clearTags f).
Proof.
  unfold clearTags.
  eapply hoare_bind; [apply ok_ensure_init|auto|intros _].
  eapply hoare_bind; [apply ok_path_resolve|auto|intros a].
  apply hoare_bind_records; [auto|]. intros d.
  eapply hoare_bind with (R := state_ok); [|auto|intros _; apply ok_save].
  intros s H. apply well_keyed_delete, (ok_with_records _ _ H).
Qed.

Lemma ok_exec c s : state_ok s -> state_ok (exec c s).
Proof.
  intros H. destruct c as [| |f ts|f ts|f|q m| | |f]; simpl.
  - by apply ok_init.
  - by apply ok_save.
  - by apply ok_addTags.
  - by apply ok_removeTags.
  - revert s H. change (hoare state_ok state_ok (getTags f)).
    unfold getTags. ok_method.
  - revert s H. change (hoare state_ok state_ok (findByTags q m)).
    unfold findByTags. ok_method.
  - revert s H. change (hoare state_ok state_ok listAllTags).
    unfold listAllTags. ok_method.
  - revert s H. change (hoare state_ok state_ok listAll).
    unfold listAll. ok_method.
  - by apply ok_clearTags.
Qed.

End StateOk.

Lemma ok_exec_all cs : forall s, state_ok s -> state_ok (exec_all cs s).
Proof.
  unfold exec_all. induction cs as [|c cs IH]; intros s H; simpl; [done|].
  by apply IH, ok_exec.
Qed.

Lemma loads_ok s s1 d : loads s s1 d -> state_ok s -> well_keyed d.
Proof.
  intros [E Hd] H. pose proof (ok_ensure_init s H) as H1.
  rewrite E in H1. unfold state_ok in H1. simpl in H1. by rewrite Hd in H1.
Qed.

Lemma findByTags_returns_inv q m s l s' :
  findByTags q m s = (Return l, s') ->
  exists d, loads s s' d /\ l = selected q m d.
Proof.
  unfold findByTags, bind at 1.
  destruct (ensure_init s) as [[[]| |] [[p v] w]] eqn:E; try discriminate.
  unfold bind. simpl. destruct v as [d|j]; simpl; [|discriminate].
  rewrite findByTags_loop. intros [= <- <-]. exists d. by split.
Qed.

(** X13. From a new instance, whatever methods were called before, the
    records held have distinct keys, and [findByTags] lists no path twice. *)
Theorem findByTags_never_repeats path w cs s q m l s' :
  run cs (constructor path, w) = Some s ->
  findByTags q m s = (Return l, s') ->
  NoDup l.
Proof.
  intros ->%run_exec_all E. apply findByTags_returns_inv in E as (d & Hl & ->).
  assert (well_keyed d) as [Hnd _].
  { apply (loads_ok _ _ _ Hl), ok_exec_all. exact I. }
  eapply sublist_NoDup; [apply Hnd | apply selected_sublist].
Qed.

Lemma findByTags_never_repeats_witness :
  NoDup ["/home/u/a.txt"].
Proof.
  apply (findByTags_never_repeats None Demo.one_file
           [AddTags "a.txt" ["x"]; AddTags "./a.txt" ["y"]; RemoveTags "a.txt" ["x"]]
           (exec_all [AddTags "a.txt" ["x"]; AddTags "./a.txt" ["y"];
                      RemoveTags "a.txt" ["x"]]
                     (constructor None, Demo.one_file))
           ["y"] false ["/home/u/a.txt"]
           (exec_all [AddTags "a.txt" ["x"]; AddTags "./a.txt" ["y"];
                      RemoveTags "a.txt" ["x"]]
                     (constructor None, Demo.one_file))).
  - vm_compute. reflexivity.
  - vm_compute. reflexivity.
Defined.

(** ** Reading back what [JSON.stringify] wrote *)

Section RoundTrip.
Implicit Types (s rest : string) (f : nat).

Lemma parse_chars_escape c rest :
  JSON.parse_chars (JSON.escape c ++ rest)
  = match JSON.parse_chars rest with
    | JSON.Parsed (t, r) => JSON.Parsed (String c t, r)
    | JSON.SyntaxError => JSON.SyntaxError
    | JSON.Unsupported => JSON.Unsupported
    end.
Proof. destruct c as [[] [] [] [] [] [] [] []]; reflexivity. Qed.

Lemma parse_chars_quote_body s rest :
  JSON.parse_chars (JSON.quote_body s ++ JSON.dq ++ rest) = JSON.Parsed (s, rest).
Proof.
  induction s as [|c s IH]; [reflexivity|].
  change (JSON.quote_body (String c s)) with (JSON.escape c ++ JSON.quote_body s).
  by rewrite append_assoc, parse_chars_escape, IH.
Qed.

Lemma quote_append s rest :
  JSON.quote s ++ rest = String (ascii_of_nat 34) (JSON.quote_body s ++ JSON.dq ++ rest).
Proof. unfold JSON.quote. by rewrite !append_assoc. Qed.

Lemma parse_value_string f s rest :
  JSON.parse_value (S f) (JSON.quote s ++ rest) = JSON.Parsed (JSON.Str s, rest).
Proof.
  rewrite quote_append. 
  change (JSON.parse_value (S f) (String (ascii_of_nat 34) ?x))
    with (match JSON.parse_chars x with
          | JSON.Parsed (t, r) => JSON.Parsed (JSON.Str t, r)
          | JSON.SyntaxError => JSON.SyntaxError
          | JSON.Unsupported => JSON.Unsupported
          end).
  by rewrite parse_chars_quote_body.
Qed.


(** *** White space between tokens *)

Lemma skip_ws_indent n s : JSON.skip_ws (JSON.indent n ++ s) = JSON.skip_ws s.
Proof. induction n as [|n IH]; [done|]. exact IH. Qed.

Lemma skip_ws_nl s : JSON.skip_ws (JSON.nl ++ s) = JSON.skip_ws s.
Proof. reflexivity. Qed.

Lemma skip_ws_idem s : JSON.skip_ws (JSON.skip_ws s) = JSON.skip_ws s.
Proof.
  induction s as [|c s IH]; [done|]. simpl.
  destruct (JSON.is_ws c) eqn:E; [done|]. simpl. by rewrite E.
Qed.

Lemma skip_ws_quote s rest : JSON.skip_ws (JSON.quote s ++ rest) = JSON.quote s ++ rest.
Proof. by rewrite quote_append. Qed.

(** The parsers look at their input only past its leading white space. *)
Lemma parse_value_skip f s s' :
  JSON.skip_ws s = JSON.skip_ws s' -> JSON.parse_value f s = JSON.parse_value f s'.
Proof. intros H. destruct f; [done|]. simpl. by rewrite H. Qed.

Lemma parse_elems_skip f s s' acc :
  JSON.skip_ws s = JSON.skip_ws s' -> JSON.parse_elems f s acc = JSON.parse_elems f s' acc.
Proof.
  intros H. destruct f; [done|]. simpl. by rewrite (parse_value_skip f s s' H).
Qed.

Lemma parse_members_skip f s s' acc :
  JSON.skip_ws s = JSON.skip_ws s' ->
  JSON.parse_members f s acc = JSON.parse_members f s' acc.
Proof. intros H. destruct f; [done|]. simpl. by rewrite H. Qed.


(** *** Arrays of strings *)

Lemma parse_elems_S f s acc :
  JSON.parse_elems (S f) s acc
  = match JSON.parse_value f s with
    | JSON.Parsed (v, r) =>
        match JSON.skip_ws r with
        | String c r' =>
            if (JSON.code c =? 44)%nat then JSON.parse_elems f r' (acc ++ [v])
            else if (JSON.code c =? 93)%nat
                 then JSON.Parsed (JSON.Array (acc ++ [v]), r')
                 else JSON.SyntaxError
        | "" => JSON.SyntaxError
        end
    | JSON.SyntaxError => JSON.SyntaxError
    | JSON.Unsupported => JSON.Unsupported
    end.
Proof. reflexivity. Qed.

Lemma lines_cons x y ys :
  JSON.lines (x :: y :: ys) = x ++ "," ++ JSON.nl ++ JSON.lines (y :: ys).
Proof. unfold JSON.lines. simpl. by rewrite !append_assoc. Qed.

Lemma parse_elems_tags ts : forall t acc f rest,
  length ts + 2 <= f ->
  JSON.parse_elems f
    (JSON.lines (map (fun t => JSON.indent 6 ++ JSON.quote t) (t :: ts))
     ++ JSON.nl ++ JSON.indent 4 ++ "]" ++ rest) acc
  = JSON.Parsed (JSON.Array (acc ++ map JSON.Str (t :: ts)), rest).
Proof.
  induction ts as [|t' ts IH]; intros t acc f rest Hf.
  - destruct f as [|[|f]]; [simpl in Hf; lia..|]. rewrite parse_elems_S.
    change (JSON.lines (map _ [t])) with (JSON.indent 6 ++ JSON.quote t).
    rewrite !append_assoc.
    rewrite (parse_value_skip _ _ (JSON.quote t ++ JSON.nl ++ JSON.indent 4 ++ "]" ++ rest)).
    2:{ by rewrite skip_ws_indent. }
    rewrite parse_value_string, skip_ws_nl, skip_ws_indent. reflexivity.
  - destruct f as [|[|f]]; [simpl in Hf; lia..|]. rewrite parse_elems_S.
    change (map ?g (t :: t' :: ts)) with (g t :: g t' :: map g ts).
    rewrite lines_cons. cbv beta. rewrite !append_assoc.
    rewrite (parse_value_skip _ _
               (JSON.quote t ++ "," ++ JSON.nl
                ++ JSON.lines (map (fun t => JSON.indent 6 ++ JSON.quote t) (t' :: ts))
                ++ JSON.nl ++ JSON.indent 4 ++ "]" ++ rest)).
    2:{ by rewrite skip_ws_indent. }
    rewrite parse_value_string.
    change (JSON.skip_ws ("," ++ ?x)) with (String ","%char x).
    change (JSON.code ","%char =? 44)%nat with true. cbv iota.
    rewrite (parse_elems_skip _ _
               (JSON.lines (map (fun t => JSON.indent 6 ++ JSON.quote t) (t' :: ts))
                ++ JSON.nl ++ JSON.indent 4 ++ "]" ++ rest)) by done.
    rewrite IH by (simpl in *; lia). by rewrite <- app_assoc.
Qed.

Lemma lines_head a xs : exists z, JSON.lines (a :: xs) = a ++ z.
Proof.
  destruct xs as [|y ys].
  - exists "". unfold JSON.lines. simpl. by rewrite append_nil_r.
  - eexists. apply lines_cons.
Qed.

(** The text of a list of items, each indented and starting with a quoted
    string, starts with a quote once white space is skipped. *)
Lemma skip_ws_items n k y xs rest :
  exists x,
    JSON.skip_ws (JSON.lines ((JSON.indent n ++ JSON.quote k ++ y) :: xs) ++ rest)
    = String (ascii_of_nat 34) x.
Proof.
  destruct (lines_head (JSON.indent n ++ JSON.quote k ++ y) xs) as [z ->].
  rewrite !append_assoc, skip_ws_indent, quote_append. eauto.
Qed.

Lemma enter_array f s x :
  JSON.skip_ws s = String (ascii_of_nat 34) x ->
  JSON.parse_value (S f) ("[" ++ s) = JSON.parse_elems f s [].
Proof.
  intros H.
  change (JSON.parse_value (S f) ("[" ++ s))
    with (match JSON.skip_ws s with
          | String c' r' as r0 =>
              if (JSON.code c' =? 93)%nat then JSON.Parsed (JSON.Array [], r')
              else JSON.parse_elems f r0 []
          | "" => JSON.SyntaxError
          end).
  rewrite H. change (JSON.code (ascii_of_nat 34) =? 93)%nat with false. cbv iota.
  apply parse_elems_skip. by rewrite <- H, skip_ws_idem.
Qed.

Lemma parse_value_tags ts f rest :
  length ts + 2 <= f ->
  JSON.parse_value f (JSON.stringify_tags ts ++ rest)
  = JSON.Parsed (JSON.Array (map JSON.Str ts), rest).
Proof.
  intros Hf. destruct f as [|f]; [lia|]. destruct ts as [|t ts]; [reflexivity|].
  unfold JSON.stringify_tags. rewrite !append_assoc.
  change (map ?g (t :: ts)) with (g t :: map g ts). cbv beta.
  destruct (skip_ws_items 6 t "" (map (fun t => JSON.indent 6 ++ JSON.quote t) ts)
              (JSON.nl ++ JSON.indent 4 ++ "]" ++ rest)) as [x Hx].
  rewrite append_nil_r in Hx.
  rewrite (enter_array f _ x) by (by rewrite skip_ws_nl).
  rewrite (parse_elems_skip _ _ _ _ (skip_ws_nl _)).
  apply (parse_elems_tags ts t []). simpl in Hf. lia.
Qed.


(** *** Objects *)

Lemma parse_members_S f s acc :
  JSON.parse_members (S f) s acc
  = match JSON.skip_ws s with
    | String q r =>
        if (JSON.code q =? 34)%nat then
          match JSON.parse_chars r with
          | JSON.Parsed (k, r1) =>
              match JSON.skip_ws r1 with
              | String c r2 =>
                  if (JSON.code c =? 58)%nat then
                    match JSON.parse_value f r2 with
                    | JSON.Parsed (v, r3) =>
                        match JSON.skip_ws r3 with
                        | String c' r4 =>
                            if (JSON.code c' =? 44)%nat
                            then JSON.parse_members f r4 (JS.set acc k v)
                            else if (JSON.code c' =? 125)%nat
                            then JSON.Parsed (JSON.Object (JS.set acc k v), r4)
                            else JSON.SyntaxError
                        | "" => JSON.SyntaxError
                        end
                    | JSON.SyntaxError => JSON.SyntaxError
                    | JSON.Unsupported => JSON.Unsupported
                    end
                  else JSON.SyntaxError
              | "" => JSON.SyntaxError
              end
          | JSON.SyntaxError => JSON.SyntaxError
          | JSON.Unsupported => JSON.Unsupported
          end
        else JSON.SyntaxError
    | "" => JSON.SyntaxError
    end.
Proof. reflexivity. Qed.

(** One member [ "k": value ] whose value parses to [v]. *)
Lemma member_step f k v acc s r2 r3 :
  JSON.skip_ws s = JSON.quote k ++ ":" ++ r2 ->
  JSON.parse_value f r2 = JSON.Parsed (v, r3) ->
  JSON.parse_members (S f) s acc
  = match JSON.skip_ws r3 with
    | String c' r4 =>
        if (JSON.code c' =? 44)%nat
        then JSON.parse_members f r4 (JS.set acc k v)
        else if (JSON.code c' =? 125)%nat
        then JSON.Parsed (JSON.Object (JS.set acc k v), r4)
        else JSON.SyntaxError
    | "" => JSON.SyntaxError
    end.
Proof.
  intros Hs Hv. rewrite parse_members_S, Hs, quote_append.
  change (JSON.code (ascii_of_nat 34) =? 34)%nat with true. cbv iota.
  rewrite parse_chars_quote_body.
  change (JSON.skip_ws (":" ++ r2)) with (String ":"%char r2).
  change (JSON.code ":"%char =? 58)%nat with true. cbv iota.
  by rewrite Hv.
Qed.

Lemma enter_object f s x :
  JSON.skip_ws s = String (ascii_of_nat 34) x ->
  JSON.parse_value (S f) ("{" ++ s) = JSON.parse_members f s [].
Proof.
  intros H.
  change (JSON.parse_value (S f) ("{" ++ s))
    with (match JSON.skip_ws s with
          | String c' r' as r0 =>
              if (JSON.code c' =? 125)%nat then JSON.Parsed (JSON.Object [], r')
              else JSON.parse_members f r0 []
          | "" => JSON.SyntaxError
          end).
  rewrite H. change (JSON.code (ascii_of_nat 34) =? 125)%nat with false. cbv iota.
  apply parse_members_skip. by rewrite <- H, skip_ws_idem.
Qed.

Lemma parse_value_record r f rest :
  length (tags r) + 5 <= f ->
  JSON.parse_value f (JSON.stringify_record r ++ rest)
  = JSON.Parsed (encode_record r, rest).
Proof.
  intros Hf. destruct f as [|[|[|[|[|f]]]]]; try lia.
  unfold JSON.stringify_record. rewrite !append_assoc.
  rewrite (enter_object _ _ (JSON.quote_body "tags" ++ JSON.dq ++ ": "
             ++ JSON.stringify_tags (tags r) ++ "," ++ JSON.nl
             ++ JSON.indent 4 ++ JSON.quote "created" ++ ": " ++ JSON.quote (created r)
             ++ "," ++ JSON.nl ++ JSON.indent 4 ++ JSON.quote "modified" ++ ": "
             ++ JSON.quote (modified r) ++ JSON.nl ++ JSON.indent 2 ++ "}" ++ rest)).
  2:{ by rewrite skip_ws_nl, skip_ws_indent, quote_append. }
  erewrite member_step.
  2:{ rewrite skip_ws_nl, skip_ws_indent, skip_ws_quote. reflexivity. }
  2:{ rewrite (parse_value_skip _ _ (JSON.stringify_tags (tags r) ++ _)) by reflexivity.
      apply parse_value_tags. lia. }
  change (JSON.skip_ws ("," ++ ?x)) with (String ","%char x).
  change (JSON.code ","%char =? 44)%nat with true. cbv iota.
  erewrite member_step.
  2:{ rewrite skip_ws_nl, skip_ws_indent, skip_ws_quote. reflexivity. }
  2:{ rewrite (parse_value_skip _ _ (JSON.quote (created r) ++ _)) by reflexivity.
      apply parse_value_string. }
  change (JSON.skip_ws ("," ++ ?x)) with (String ","%char x).
  change (JSON.code ","%char =? 44)%nat with true. cbv iota.
  erewrite member_step.
  2:{ rewrite skip_ws_nl, skip_ws_indent, skip_ws_quote. reflexivity. }
  2:{ rewrite (parse_value_skip _ _ (JSON.quote (modified r) ++ _)) by reflexivity.
      apply parse_value_string. }
  rewrite skip_ws_nl, skip_ws_indent. reflexivity.
Qed.


(** *** The whole store *)

Lemma parse_members_entries d : forall e acc f rest,
  weight (e :: d) + 5 <= f ->
  JSON.parse_members f
    (JSON.lines (map (fun e => JSON.indent 2 ++ JSON.quote (fst e) ++ ": "
                               ++ JSON.stringify_record (snd e)) (e :: d))
     ++ JSON.nl ++ "}" ++ rest) acc
  = JSON.Parsed
      (JSON.Object (foldl (fun a x => JS.set a (fst x) (encode_record (snd x)))
                          acc (e :: d)), rest).
Proof.
  induction d as [|e' d IH]; intros e acc f rest Hf.
  - destruct f as [|f]; [lia|].
    change (JSON.lines (map ?g [e])) with (g e). cbv beta. rewrite !append_assoc.
    erewrite member_step.
    2:{ rewrite skip_ws_indent, skip_ws_quote. reflexivity. }
    2:{ rewrite (parse_value_skip _ _ (JSON.stringify_record (snd e) ++ _)) by reflexivity.
        apply parse_value_record. simpl in Hf. lia. }
    rewrite skip_ws_nl. reflexivity.
  - destruct f as [|f]; [lia|].
    change (map ?g (e :: e' :: d)) with (g e :: g e' :: map g d).
    rewrite lines_cons. cbv beta. rewrite !append_assoc.
    erewrite member_step.
    2:{ rewrite skip_ws_indent, skip_ws_quote. reflexivity. }
    2:{ rewrite (parse_value_skip _ _ (JSON.stringify_record (snd e) ++ _)) by reflexivity.
        apply parse_value_record. simpl in Hf. lia. }
    change (JSON.skip_ws ("," ++ ?x)) with (String ","%char x).
    change (JSON.code ","%char =? 44)%nat with true. cbv iota.
    rewrite (parse_members_skip _ _ _ _ (skip_ws_nl _)).
    apply (IH e' _ f rest). simpl in *. lia.
Qed.

Lemma parse_value_store d f rest :
  weight d + 6 <= f ->
  JSON.parse_value f (JSON.stringify d ++ rest)
  = JSON.Parsed
      (JSON.Object (foldl (fun a x => JS.set a (fst x) (encode_record (snd x))) [] d),
       rest).
Proof.
  intros Hf. destruct f as [|f]; [lia|]. destruct d as [|e d]; [reflexivity|].
  unfold JSON.stringify. rewrite !append_assoc.
  change (map ?g (e :: d)) with (g e :: map g d). cbv beta.
  destruct (skip_ws_items 2 (fst e) (": " ++ JSON.stringify_record (snd e))
              (map (fun e => JSON.indent 2 ++ JSON.quote (fst e) ++ ": "
                             ++ JSON.stringify_record (snd e)) d)
              (JSON.nl ++ "}" ++ rest)) as [x Hx].
  rewrite (enter_object f _ x) by (by rewrite skip_ws_nl).
  rewrite (parse_members_skip _ _ _ _ (skip_ws_nl _)).
  apply (parse_members_entries d e []). lia.
Qed.

(** The text is longer than the parser needs fuel. *)
Lemma length_append a b : String.length (a ++ b) = String.length a + String.length b.
Proof. induction a as [|c a IH]; [done|]. rewrite append_cons. simpl. by rewrite IH. Qed.

Lemma length_lines_tags ts :
  length ts <= String.length (JSON.lines (map (fun t => JSON.indent 6 ++ JSON.quote t) ts)).
Proof.
  induction ts as [|t [|t' ts] IH]; [done| |].
  - change (JSON.lines (map ?g [t])) with (g t). cbv beta.
    rewrite length_append. simpl. lia.
  - change (map ?g (t :: t' :: ts)) with (g t :: g t' :: map g ts).
    rewrite lines_cons. cbv beta. rewrite !length_append.
    change (map ?g (t' :: ts)) with (g t' :: map g ts) in IH. cbv beta in IH.
    simpl String.length at 1. simpl length in *. lia.
Qed.

Lemma length_stringify_tags ts : length ts <= String.length (JSON.stringify_tags ts).
Proof.
  destruct ts as [|t ts]; [simpl; lia|]. unfold JSON.stringify_tags.
  rewrite !length_append. pose proof (length_lines_tags (t :: ts)). lia.
Qed.

Lemma length_entry (e : string * TagRecord) :
  S (length (tags (snd e)))
  <= String.length (JSON.indent 2 ++ JSON.quote (fst e) ++ ": "
                    ++ JSON.stringify_record (snd e)).
Proof.
  unfold JSON.stringify_record. rewrite !length_append.
  pose proof (length_stringify_tags (tags (snd e))). simpl String.length at 1. lia.
Qed.

Lemma length_lines_entries d :
  weight d
  <= String.length
       (JSON.lines (map (fun e => JSON.indent 2 ++ JSON.quote (fst e) ++ ": "
                                  ++ JSON.stringify_record (snd e)) d)).
Proof.
  induction d as [|e [|e' d] IH]; [done| |].
  - change (JSON.lines (map ?g [e])) with (g e). cbv beta.
    pose proof (length_entry e). simpl weight. lia.
  - change (map ?g (e :: e' :: d)) with (g e :: g e' :: map g d).
    rewrite lines_cons. cbv beta. rewrite (length_append (_ ++ _ ++ _ ++ _)).
    rewrite !(length_append ","), !(length_append JSON.nl).
    change (map ?g (e' :: d)) with (g e' :: map g d) in IH. cbv beta in IH.
    pose proof (length_entry e).
    change (weight (e :: e' :: d)) with (S (length (tags (snd e))) + weight (e' :: d)).
    lia.
Qed.

Lemma length_stringify d : weight d + 2 <= String.length (JSON.stringify d).
Proof.
  destruct d as [|e d]; [simpl; lia|]. unfold JSON.stringify.
  rewrite !length_append. pose proof (length_lines_entries (e :: d)).
  change (String.length JSON.nl) with 1. change (String.length "{") with 1.
  change (String.length "}") with 1. lia.
Qed.

Lemma parse_stringify d :
  JSON.parse (JSON.stringify d)
  = JSON.Parsed
      (JSON.Object (foldl (fun a x => JS.set a (fst x) (encode_record (snd x))) [] d)).
Proof.
  unfold JSON.parse. pose proof (length_stringify d).
  rewrite <- (append_nil_r (JSON.stringify d)) at 2.
  rewrite parse_value_store by lia. reflexivity.
Qed.


(** *** From the parsed value back to the records *)

Lemma keys_encode_members d : JS.keys (encode_members d) = JS.keys d.
Proof. unfold JS.keys, encode_members. rewrite map_map. reflexivity. Qed.

Lemma members_foldl d : forall acc,
  NoDup (JS.keys acc ++ JS.keys d) ->
  foldl (fun a x => JS.set a (fst x) (encode_record (snd x))) acc d
  = (acc ++ encode_members d)%list.
Proof.
  induction d as [|e d IH]; intros acc H; simpl.
  - by rewrite app_nil_r.
  - assert (JS.get acc (fst e) = None) as G.
    { apply get_None_not_key. apply NoDup_app in H as (_ & H & _).
      intros Hin. apply (H _ Hin). left. }
    rewrite (set_absent _ _ _ G), IH.
    + by rewrite <- app_assoc.
    + unfold JS.keys in *. rewrite map_app. simpl. by rewrite <- app_assoc.
Qed.

Lemma as_strings_Str ts : JSON.as_strings (map JSON.Str ts) = Some ts.
Proof. induction ts as [|t ts IH]; [done|]. simpl. by rewrite IH. Qed.

Lemma as_record_encode r : JSON.as_record (encode_record r) = Some r.
Proof. destruct r as [ts c m]. simpl. by rewrite as_strings_Str. Qed.

Lemma as_records_encode d : JSON.as_records (encode_members d) = Some d.
Proof.
  induction d as [|[k r] d IH]; [done|].
  change (encode_members ((k, r) :: d)) with ((k, encode_record r) :: encode_members d).
  cbn [JSON.as_records]. by rewrite as_record_encode, IH.
Qed.

Lemma as_store_encode d : well_keyed d -> JSON.as_store (encode d) = Some d.
Proof.
  intros [Hnd Hp]. unfold encode. cbn [JSON.as_store].
  rewrite keys_encode_members, Hp, bool_decide_eq_true_2 by done.
  apply as_records_encode.
Qed.

Lemma parse_stringify_encode d :
  NoDup (JS.keys d) -> JSON.parse (JSON.stringify d) = JSON.Parsed (encode d).
Proof.
  intros H. rewrite parse_stringify. unfold encode. f_equal. f_equal.
  by apply (members_foldl d []).
Qed.

End RoundTrip.

(** X14. What [JSON.stringify(db, null, 2)] writes for a store with
    distinct keys, none starting with a digit, [JSON.parse] reads back as
    the same store: same paths in the same order, same tags, same
    timestamps, whatever characters they contain. *)
Theorem stringify_parse_roundtrip d :
  well_keyed d ->
  JSON.parse (JSON.stringify d) = JSON.Parsed (encode d) /\
  of_json (encode d) = Records d.
Proof.
  intros H. split.
  - apply parse_stringify_encode, H.
  - unfold of_json. by rewrite as_store_encode.
Qed.

Lemma stringify_parse_roundtrip_witness :
  JSON.parse (JSON.stringify Demo.library) = JSON.Parsed (encode Demo.library) /\
  of_json (encode Demo.library) = Records Demo.library.
Proof.
  apply stringify_parse_roundtrip. split; [|reflexivity].
  apply (bool_decide_unpack (NoDup (JS.keys Demo.library))). vm_compute. exact I.
Defined.

(** ** The backing file follows the records *)





(** X15. The query methods change nothing that the load at their head
    does not. For an instance whose load gives records, [getTags],
    [findByTags], [listAllTags] and [listAll] all return, and leave the
    instance and the world exactly as [if (!this.db) await this.init()]
    left them: as [init] left them when the instance had not loaded, and
    as they were when it had. In that case there is no file system call, no
    clock reading, and no test that the file of [getTags] exists. *)
Theorem queries_only_load s s1 d f q m :
  loads s s1 d ->
  (exists l, getTags f s = (Return l, s1)) /\
  (exists l, findByTags q m s = (Return l, s1)) /\
  (exists l, listAllTags s = (Return l, s1)) /\
  listAll s = (Return d, s1) /\
  s1 = (if unloaded (db (fst s)) then snd (init s) else s).
Proof.
  intros H.
  split; [eexists; apply (getTags_run _ _ _ _ H)|].
  split; [eexists; apply (findByTags_run _ _ _ _ _ H)|].
  split; [eexists; apply (listAllTags_run _ _ _ H)|].
  split.
  - unfold listAll. rewrite (after_load _ _ _ _ H).
    by rewrite (loads_shape _ _ _ H).
  - destruct H as [E _]. destruct (unloaded (db (fst s))) eqn:U.
    + rewrite (ensure_init_run _ U) in E. by rewrite E.
    + rewrite (ensure_init_skip _ U) in E. by injection E.
Qed.

Lemma queries_only_load_witness :
  (exists l, getTags "file2.txt" (Demo.fresh, Demo.stored)
             = (Return l, snd (ensure_init (Demo.fresh, Demo.stored)))) /\
  (exists l, findByTags ["work"] true (Demo.fresh, Demo.stored)
             = (Return l, snd (ensure_init (Demo.fresh, Demo.stored)))) /\
  (exists l, listAllTags (Demo.fresh, Demo.stored)
             = (Return l, snd (ensure_init (Demo.fresh, Demo.stored)))) /\
  listAll (Demo.fresh, Demo.stored)
  = (Return Demo.library, snd (ensure_init (Demo.fresh, Demo.stored))) /\
  snd (ensure_init (Demo.fresh, Demo.stored))
  = (if unloaded (db (fst (Demo.fresh, Demo.stored)))
     then snd (init (Demo.fresh, Demo.stored)) else (Demo.fresh, Demo.stored)).
Proof.
  apply (queries_only_load (Demo.fresh, Demo.stored) _ Demo.library).
  split; vm_compute; reflexivity.
Defined.














(** * The command line *)

Section CliFacts.
Implicit Types (pre post args rest : list string) (v : string).

Lemma indexOf_absent x args : x ∉ args -> Cli.indexOf x args = None.
Proof.
  induction args as [|a args IH]; [done|]. intros H.
  apply not_elem_of_cons in H as [Hne H]. simpl.
  apply String.eqb_neq in Hne. rewrite String.eqb_sym, Hne. by rewrite IH.
Qed.

Lemma indexOf_first x pre post :
  x ∉ pre -> Cli.indexOf x (pre ++ x :: post) = Some (length pre).
Proof.
  induction pre as [|a pre IH]; intros H; simpl.
  - by rewrite String.eqb_refl.
  - apply not_elem_of_cons in H as [Hne H].
    apply String.eqb_neq in Hne. rewrite String.eqb_sym, Hne. by rewrite IH.
Qed.

Lemma db_option_absent args :
  "--db" ∉ args -> Cli.db_option args = (".filetag.json", args).
Proof. intros H. unfold Cli.db_option. by rewrite indexOf_absent. Qed.

Lemma db_option_given pre v post :
  "--db" ∉ pre -> v <> "" ->
  Cli.db_option (pre ++ "--db" :: v :: post) = (v, (pre ++ post)%list).
Proof.
  intros H Hv. unfold Cli.db_option. rewrite indexOf_first by done.
  rewrite lookup_app_r by lia.
  replace (S (length pre) - length pre) with 1 by lia. simpl.
  apply String.eqb_neq in Hv. rewrite Hv.
  rewrite take_app_length.
  rewrite drop_app_ge by lia.
  by replace (length pre + 2 - length pre) with 2 by lia.
Qed.

Lemma db_option_head v post :
  v <> "" -> Cli.db_option ("--db" :: v :: post) = (v, post).
Proof. intros Hv. apply (db_option_given [] v post); [apply not_elem_of_nil | done]. Qed.

Lemma db_option_last pre :
  "--db" ∉ pre ->
  Cli.db_option (pre ++ ["--db"]) = (".filetag.json", (pre ++ ["--db"])%list).
Proof.
  intros H. unfold Cli.db_option. rewrite indexOf_first by done.
  rewrite lookup_ge_None_2; [done|]. rewrite length_app. simpl. lia.
Qed.

Lemma help_requested_app pre post :
  pre <> [] -> Cli.help_requested (pre ++ post) = Cli.help_requested pre.
Proof. by destruct pre. Qed.

End CliFacts.

(** X17. The [--db] option is taken wherever it first stands among the
    arguments: after a command that is not a help request, the run is the
    same as with [--db <path>] put first. *)
Theorem cli_db_option_anywhere pre v post w :
  Cli.help_requested pre = false ->
  "--db" ∉ pre ->
  v <> "" ->
  Cli.main (pre ++ "--db" :: v :: post) w = Cli.main ("--db" :: v :: pre ++ post) w.
Proof.
  intros Hh Hpre Hv. unfold Cli.main.
  assert (pre <> []) as Hne by (by destruct pre).
  rewrite (help_requested_app pre) by done. rewrite Hh.
  change (Cli.help_requested ("--db" :: v :: pre ++ post)) with false.
  rewrite (db_option_given pre v post) by done.
  by rewrite db_option_head.
Qed.

Lemma cli_db_option_anywhere_witness :
  Cli.main (["list"; "file1.txt"] ++ "--db" :: "/home/u/.filetag.json" :: []) Demo.stored
  = Cli.main ("--db" :: "/home/u/.filetag.json" :: ["list"; "file1.txt"] ++ []) Demo.stored.
Proof.
  apply (cli_db_option_anywhere ["list"; "file1.txt"]).
  - reflexivity.
  - intros H. apply list_elem_of_In in H. simpl in H.
    destruct H as [H|[H|[]]]; discriminate.
  - discriminate.
Defined.

(** X18. [help] is recognised only as the first argument: after a [--db]
    option it is an unknown command and the exit code is 1; a [--db] left
    without a path is kept as an argument, and becomes a tag of [add]. *)
Theorem cli_help_only_first v rest w f :
  v <> "" ->
  f <> "--db" ->
  Cli.main ("help" :: rest) w = Cli.Exited [Cli.Help] 0 w /\
  Cli.main ("--db" :: v :: "help" :: rest) w
  = Cli.Exited [Cli.Err "Unknown command: help";
                Cli.Err ("Run " ++ JSON.dq ++ "filetag help" ++ JSON.dq
                         ++ " for usage information")] 1 w /\
  Cli.main ["add"; f; "--db"] w
  = Cli.call (addTags f ["--db"]) ".filetag.json" w
      (fun result => [Cli.Log ("Tags added to " ++ f ++ ":");
                      Cli.Log (Cli.join result)]).
Proof.
  intros Hv Hf. split; [reflexivity|]. split.
  - unfold Cli.main. change (Cli.help_requested _) with false. cbv iota.
    by rewrite db_option_head.
  - unfold Cli.main. change (Cli.help_requested _) with false. cbv iota.
    pose proof (db_option_last ["add"; f]) as E. simpl in E.
    rewrite E; [done|]. apply not_elem_of_cons. split; [done|].
    apply not_elem_of_cons. split; [congruence | apply not_elem_of_nil].
Qed.

Lemma cli_help_only_first_witness :
  Cli.main ["help"] Demo.stored = Cli.Exited [Cli.Help] 0 Demo.stored /\
  Cli.main ["--db"; "x.json"; "help"] Demo.stored
  = Cli.Exited [Cli.Err "Unknown command: help";
                Cli.Err ("Run " ++ JSON.dq ++ "filetag help" ++ JSON.dq
                         ++ " for usage information")] 1 Demo.stored /\
  Cli.main ["add"; "file1.txt"; "--db"] Demo.stored
  = Cli.call (addTags "file1.txt" ["--db"]) ".filetag.json" Demo.stored
      (fun result => [Cli.Log ("Tags added to " ++ "file1.txt" ++ ":");
                      Cli.Log (Cli.join result)]).
Proof.
  apply (cli_help_only_first "x.json" [] Demo.stored "file1.txt"); discriminate.
Defined.

(** X19. [filetag search --all], with the flag and no tag, passes the
    argument check and searches for the empty list in AND mode: it prints
    every tracked path. *)
Theorem cli_search_all_without_tags w s1 d :
  loads (constructor None, w) s1 d ->
  Cli.main ["search"; "--all"] w
  = Cli.Exited
      (Cli.Log "Files with tag  (all):"
       :: match JS.keys d with
          | [] => [Cli.Log "(no files found)"]
          | _ => map (fun file => Cli.Log ("  " ++ file)) (JS.keys d)
          end)
      0 (snd s1).
Proof.
  intros H. unfold Cli.main. change (Cli.help_requested _) with false. cbv iota.
  change (Cli.db_option ["search"; "--all"])
    with (".filetag.json", ["search"; "--all"]).
  cbv iota beta. change (String.eqb "search" "add") with false.
  change (String.eqb "search" "remove") with false.
  change (String.eqb "search" "list") with false.
  change (String.eqb "search" "search") with true. cbv iota.
  unfold Cli.call.
  change (constructor (Some ".filetag.json")) with (constructor None).
  change (List.filter _ ["--all"]) with (@nil string).
  change (Cli.includes "--all" ["search"; "--all"]) with true. cbv zeta.
  by rewrite (findByTags_run _ _ _ _ _ H), selected_nil_all.
Qed.

Lemma cli_search_all_without_tags_witness :
  Cli.main ["search"; "--all"] Demo.stored
  = Cli.Exited
      [Cli.Log "Files with tag  (all):"; Cli.Log "  /home/u/file1.txt";
       Cli.Log "  /home/u/file2.txt"; Cli.Log "  /home/u/file3.txt"]
      0 (snd (snd (ensure_init (constructor None, Demo.stored)))).
Proof.
  apply (cli_search_all_without_tags Demo.stored _ Demo.library).
  split; vm_compute; reflexivity.
Defined.

(** X20. [add] and [remove] with fewer than a path and one tag end with
    exit code 1 before any library call: nothing is read or written. The
    same happens when a [--db] option stands where the only tag would. *)
Theorem cli_add_needs_tag rest w f v :
  length rest <= 1 ->
  "--db" ∉ rest ->
  v <> "" -> f <> "--db" ->
  Cli.main ("add" :: rest) w
  = Cli.Exited [Cli.Err "Error: add command requires file path and at least one tag"]
               1 w /\
  Cli.main ("remove" :: rest) w
  = Cli.Exited [Cli.Err "Error: remove command requires file path and at least one tag"]
               1 w /\
  Cli.main ["add"; f; "--db"; v] w
  = Cli.Exited [Cli.Err "Error: add command requires file path and at least one tag"]
               1 w.
Proof.
  intros Hlen Hdb Hv Hf. repeat split.
  - unfold Cli.main. change (Cli.help_requested _) with false. cbv iota.
    rewrite db_option_absent.
    + by destruct rest as [|a [|b rest]]; [..|simpl in Hlen; lia].
    + apply not_elem_of_cons. by split.
  - unfold Cli.main. change (Cli.help_requested _) with false. cbv iota.
    rewrite db_option_absent.
    + by destruct rest as [|a [|b rest]]; [..|simpl in Hlen; lia].
    + apply not_elem_of_cons. by split.
  - unfold Cli.main. change (Cli.help_requested _) with false. cbv iota.
    pose proof (db_option_given ["add"; f] v []) as E. simpl in E.
    rewrite E; [done| |done].
    apply not_elem_of_cons. split; [done|].
    apply not_elem_of_cons. split; [congruence | apply not_elem_of_nil].
Qed.

Lemma cli_add_needs_tag_witness :
  Cli.main ("add" :: ["file1.txt"]) Demo.stored
  = Cli.Exited [Cli.Err "Error: add command requires file path and at least one tag"]
               1 Demo.stored /\
  Cli.main ("remove" :: ["file1.txt"]) Demo.stored
  = Cli.Exited [Cli.Err "Error: remove command requires file path and at least one tag"]
               1 Demo.stored /\
  Cli.main ["add"; "file1.txt"; "--db"; "x.json"] Demo.stored
  = Cli.Exited [Cli.Err "Error: add command requires file path and at least one tag"]
               1 Demo.stored.
Proof.
  apply (cli_add_needs_tag ["file1.txt"] Demo.stored "file1.txt" "x.json").
  - simpl. lia.
  - intros H. apply list_elem_of_In in H. simpl in H. destruct H as [H|[]]; discriminate.
  - discriminate.
  - discriminate.
Defined.

(** X21. [filetag add] on a path at which there is no entry, run where
    there is no store yet and one can be written, prints the error and
    exits with 1, and leaves a new backing file holding the empty store;
    that write is the only one. *)
Theorem cli_failed_add_creates_store f t ts w :
  "--db" ∉ f :: t :: ts ->
  exists_at w (Path.resolve (cwd w) f) = false ->
  files w !! Path.resolve (cwd w) ".filetag.json" = None ->
  writable w (Path.resolve (cwd w) ".filetag.json") = true ->
  Path.resolve (cwd w) f <> Path.resolve (cwd w) ".filetag.json" ->
  exists w',
    Cli.main ("add" :: f :: t :: ts) w
    = Cli.Exited [Cli.Err ("Error: File not found: " ++ Path.resolve (cwd w) f)] 1 w' /\
    files w' = <[Path.resolve (cwd w) ".filetag.json" := "{}"]> (files w) /\
    writes_resolve w w'.
Proof.
  intros Hdb Hf Hb Hwr Hne. unfold Cli.main.
  change (Cli.help_requested _) with false. cbv iota.
  rewrite db_option_absent by (apply not_elem_of_cons; by split).
  cbv iota beta. change (String.eqb "add" "add") with true. cbv iota.
  unfold Cli.call.
  change (constructor (Some ".filetag.json"))
    with (mk ".filetag.json" (Other JSON.Null)).
  rewrite (addTags_missing_after_reset ".filetag.json" (Other JSON.Null) w f (t :: ts))
    by auto.
  eexists. split; [reflexivity|]. split; [reflexivity|].
  by apply writes_resolve_reset.
Qed.

Lemma cli_failed_add_creates_store_witness :
  exists w',
    Cli.main ("add" :: "nope.txt" :: "x" :: []) Demo.one_file
    = Cli.Exited [Cli.Err ("Error: File not found: " ++ "/home/u/nope.txt")] 1 w' /\
    files w' = <["/home/u/.filetag.json" := "{}"]> (files Demo.one_file) /\
    writes_resolve Demo.one_file w'.
Proof.
  apply (cli_failed_add_creates_store "nope.txt" "x" [] Demo.one_file).
  - intros H. apply list_elem_of_In in H. simpl in H.
    destruct H as [H|[H|[]]]; discriminate.
  - vm_compute. reflexivity.
  - vm_compute. reflexivity.
  - vm_compute. reflexivity.
  - vm_compute. discriminate.
Defined.



(** * First use *)

Section HasRecords.








End HasRecords.











(** X24. [addTags] with an empty list of tags still tracks the path: an
    untracked existing file gets a record with no tags, the call returns
    the empty list, and the path is then among those [findByTags([], true)]
    returns. *)
Theorem addTags_empty_list p d w f :
  is_Some (files w !! Path.resolve (cwd w) f) ->
  JS.get d (Path.resolve (cwd w) f) = None ->
  exists s',
    addTags f [] (mk p (Records d), w) = (Return [], s') /\
    getTags f s' = (Return [], s') /\
    findByTags [] true s' = (Return (JS.keys d ++ [Path.resolve (cwd w) f])%list, s').
Proof.
  intros Hf G. apply exists_at_file in Hf. eexists. split; [by apply addTags_untracked|].
  split.
  - rewrite (getTags_run _ _ _ _ (loads_loaded _ _ _)). simpl. by rewrite get_set_eq.
  - rewrite (findByTags_run _ _ _ _ _ (loads_loaded _ _ _)).
    by rewrite selected_nil_all, keys_set_absent.
Qed.

Lemma addTags_empty_list_witness :
  exists s',
    addTags "a.txt" [] (Demo.loaded [], Demo.one_file) = (Return [], s') /\
    getTags "a.txt" s' = (Return [], s') /\
    findByTags [] true s' = (Return ([] ++ ["/home/u/a.txt"])%list, s').
Proof.
  apply (addTags_empty_list ".filetag.json" [] Demo.one_file "a.txt").
  - vm_compute. eexists. reflexivity.
  - reflexivity.
Defined.



(** X26. [filetag remove] on a path that has no record is no error: it
    prints [(no tags)] and exits with 0, and the world is as the load of
    the store left it: nothing is written, and the file is not tested for
    existence. *)
Theorem cli_remove_untracked f t ts w s1 d :
  "--db" ∉ f :: t :: ts ->
  loads (constructor None, w) s1 d ->
  JS.get d (Path.resolve (cwd (snd s1)) f) = None ->
  Cli.main ("remove" :: f :: t :: ts) w
  = Cli.Exited [Cli.Log ("Remaining tags for " ++ f ++ ":"); Cli.Log "(no tags)"]
               0 (snd s1).
Proof.
  intros Hdb Hl G.
  unfold Cli.main. change (Cli.help_requested _) with false. cbv iota.
  rewrite db_option_absent.
  2:{ apply not_elem_of_cons. split; [done|]. exact Hdb. }
  cbv iota beta.
  change (String.eqb "remove" "add") with false.
  change (String.eqb "remove" "remove") with true. cbv iota.
  unfold Cli.call. change (constructor (Some ".filetag.json")) with (constructor None).
  rewrite (removeTags_from_loaded _ _ _ _ _ Hl).
  rewrite (loads_shape _ _ _ Hl). rewrite removeTags_untracked by exact G.
  reflexivity.
Qed.

Lemma cli_remove_untracked_witness :
  Cli.main ["remove"; "file9.txt"; "work"] Demo.stored
  = Cli.Exited [Cli.Log ("Remaining tags for " ++ "file9.txt" ++ ":");
                Cli.Log "(no tags)"]
               0 (snd (snd (ensure_init (constructor None, Demo.stored)))).
Proof.
  apply (cli_remove_untracked "file9.txt" "work" [] Demo.stored _ Demo.library).
  - intros H. apply list_elem_of_In in H. simpl in H.
    destruct H as [H|[H|[]]]; discriminate.
  - split; vm_compute; reflexivity.
  - vm_compute. reflexivity.
Defined.
